(** * Preview: a shallow embedding of [src/rewrite.js] and [src/main.js]

    The development follows the two source files that carry the design:

    - [rewrite.js]: the reference classifier [isAbsoluteOrSpecial], the
      resolver [resolveUrl], the document pass [rewriteDocument] and the
      entry point [rewriteHtml];
    - [main.js]: the three caches, the navigation state, the query-string
      synchronisation, the transitions [doLoadRepo], [openPath] and
      [onSelect], and the [popstate] listener.

    Conventions.  A JavaScript string is a [string]; each [ascii] stands for
    one code unit below 256.  [null]/[undefined] is [None].  A rejected
    promise or a thrown exception is [Throw]; an [await] is a monadic bind,
    so one transition is modelled running to completion on its own.
    Services that the controller and the rewriter call but that lie
    outside them (the [URL] constructor, [DOMParser], [outerHTML], the
    network functions that [api.js] exports) are parameters of what uses
    them. *)

From Stdlib Require Import Ascii String.
From stdpp Require Import gmap strings list.


(* ===================================================================== *)
(** ** JavaScript string primitives used by the sources                   *)
(* ===================================================================== *)

Module Js.

(** White space removed by [String.prototype.trim], restricted to code
    units below 256: TAB, LF, VT, FF, CR, SPACE and NBSP. *)
Definition is_whitespace (c : ascii) : bool :=
  let n := nat_of_ascii c in
  ((9 <=? n) && (n <=? 13)) || (n =? 32) || (n =? 160).

Fixpoint trimStart (s : string) : string :=
  match s with
  | String c r => if is_whitespace c then trimStart r else s
  | EmptyString => EmptyString
  end.

Definition trimEnd (s : string) : string :=
  String.rev (trimStart (String.rev s)).

Definition trim (s : string) : string := trimEnd (trimStart s).

(** [s.startsWith(p)] and [s.endsWith(p)]. *)
Definition startsWith (s p : string) : bool := String.prefix p s.

Definition endsWith (s p : string) : bool :=
  String.prefix (String.rev p) (String.rev s).

(** Truthiness of a string value: every string but the empty one. *)
Definition truthy (s : string) : bool := negb (String.eqb s "").

(** [s.split(sep)] for a one-character separator.  The result is never
    empty: [''.split('/')] is [['']]. *)
Fixpoint split (sep : ascii) (s : string) : list string :=
  match s with
  | EmptyString => [EmptyString]
  | String c r =>
      if Ascii.eqb c sep then EmptyString :: split sep r
      else match split sep r with
           | h :: t => String c h :: t
           | [] => [String c EmptyString]
           end
  end.

(** [l.join(sep)]. *)
Fixpoint join (sep : string) (l : list string) : string :=
  match l with
  | [] => EmptyString
  | [x] => x
  | x :: rest => x +:+ sep +:+ join sep rest
  end.

(** [l.filter(Boolean)] on an array of strings. *)
Definition filterBoolean (l : list string) : list string :=
  List.filter truthy l.

(** [l.pop() || ''] : the last element, [''] when there is none or when
    it is empty. *)
Definition popOrEmpty (l : list string) : string := List.last l "".

(** [toLowerCase] on code units below 256: A-Z and the Latin-1 capitals
    (except the multiplication sign) are shifted by 32. *)
Definition lower_char (c : ascii) : ascii :=
  let n := nat_of_ascii c in
  if ((65 <=? n) && (n <=? 90))
     || ((192 <=? n) && (n <=? 222) && negb (n =? 215))
  then ascii_of_nat (n + 32) else c.

Fixpoint toLowerCase (s : string) : string :=
  match s with
  | EmptyString => EmptyString
  | String c r => String (lower_char c) (toLowerCase r)
  end.

(** [s.includes('/')]-style membership of one character. *)
Fixpoint includes_char (c : ascii) (s : string) : bool :=
  match s with
  | EmptyString => false
  | String d r => Ascii.eqb d c || includes_char c r
  end.

End Js.

(* ===================================================================== *)
(** ** [rewrite.js]                                                       *)
(* ===================================================================== *)

Module Rewrite.

(** [URL_ATTRS], in the order [Object.entries] enumerates it. *)
Definition URL_ATTRS : list (string * list string) :=
  [ ("a", ["href"]);
    ("img", ["src"]);
    ("script", ["src"]);
    ("link", ["href"]);
    ("source", ["src"]);
    ("video", ["src"; "poster"]);
    ("audio", ["src"]) ].

(** [isAbsoluteOrSpecial(url)].  The argument is what [getAttribute]
    returns: a string, or [null] ([None]), the only non-string value that
    reaches the function. *)
Definition isAbsoluteOrSpecial (url : option string) : bool :=
  match url with
  | None => true
  | Some u =>
      if negb (Js.truthy u) then true else
      let t := Js.trim u in
      if Js.startsWith t "http://" || Js.startsWith t "https://" then true
      else if Js.startsWith t "#" then true
      else if Js.startsWith t "data:" then true
      else if Js.startsWith t "mailto:" || Js.startsWith t "tel:"
              || Js.startsWith t "javascript:" then true
      else false
  end.

(** An element as the rewriter sees it: a tag name and its attributes in
    source order, one entry per attribute name.  The children are kept
    for the serialiser: an element child is named by its index in the
    document's element table, a text child by its data. *)
Record Element := mkElement {
  tagName : string;
  attributes : list (string * string);
  childNodes : list (nat + string)
}.

(** [el.getAttribute(name)]. *)
Fixpoint getAttribute (name : string) (attrs : list (string * string))
  : option string :=
  match attrs with
  | [] => None
  | (n, v) :: rest => if String.eqb n name then Some v
                      else getAttribute name rest
  end.

(** [el.setAttribute(name, value)]: overwrite in place, append if new. *)
Fixpoint setAttribute (name value : string) (attrs : list (string * string))
  : list (string * string) :=
  match attrs with
  | [] => [(name, value)]
  | (n, v) :: rest => if String.eqb n name then (n, value) :: rest
                      else (n, v) :: setAttribute name value rest
  end.

Definition getAttr (name : string) (e : Element) : option string :=
  getAttribute name (attributes e).

Definition setAttr (name value : string) (e : Element) : Element :=
  mkElement (tagName e) (setAttribute name value (attributes e))
            (childNodes e).

(** A parsed document: the element objects of the tree, in tree order.
    [documentElement] always exists in what the HTML parser returns; the
    other elements follow it.  Element [i] of [elements] is the object a
    [NodeList] entry refers to, so an in-place [setAttribute] is an update
    of the table at [i]. *)
Record Document := mkDocument {
  documentElement : Element;
  descendants : list Element
}.

Definition elements (d : Document) : list Element :=
  documentElement d :: descendants d.

Definition updateElement (f : Element → Element) (i : nat) (d : Document)
  : Document :=
  match i with
  | O => mkDocument (f (documentElement d)) (descendants d)
  | S j => mkDocument (documentElement d) (alter f j (descendants d))
  end.

(** The selector [`${tag}[${attr}]`]: elements with that tag name that
    carry the attribute (with any value, the empty one included). *)
Definition matchesSelector (tag attr : string) (e : Element) : bool :=
  String.eqb (tagName e) tag && bool_decide (is_Some (getAttr attr e)).

(** [doc.querySelectorAll(sel)]: the matching elements in tree order, as
    a static list of references. *)
Fixpoint selectFrom (tag attr : string) (i : nat) (es : list Element)
  : list nat :=
  match es with
  | [] => []
  | e :: rest =>
      if matchesSelector tag attr e then i :: selectFrom tag attr (S i) rest
      else selectFrom tag attr (S i) rest
  end.

Definition querySelectorAll (tag attr : string) (d : Document) : list nat :=
  selectFrom tag attr 0 (elements d).

Section WithURL.

(** [new URL(relative, base).href]; [None] when the constructor throws. *)
Variable URL : string → string → option string.

(** [resolveUrl(relative, baseRawDirUrl)]. *)
Definition resolveUrl (relative baseRawDirUrl : string) : string :=
  let base := if Js.endsWith baseRawDirUrl "/" then baseRawDirUrl
              else baseRawDirUrl +:+ "/" in
  match URL relative base with
  | Some href => href
  | None => relative
  end.

(** Body of the innermost loop of [rewriteDocument] for one [attr]. *)
Definition rewriteAttr (baseRawDirUrl : string) (e : Element)
           (attr : string) : Element :=
  match getAttr attr e with
  | Some url =>
      if Js.truthy url && negb (isAbsoluteOrSpecial (Some url))
      then setAttr attr (resolveUrl url baseRawDirUrl) e
      else e
  | None => e
  end.

(** [for (const attr of attrs) ...] on one element. *)
Definition rewriteAttrs (baseRawDirUrl : string) (attrs : list string)
           (e : Element) : Element :=
  foldl (rewriteAttr baseRawDirUrl) e attrs.

(** One iteration of the outer loop: a [[tag, attrs]] entry. *)
Definition rewriteEntry (baseRawDirUrl : string) (d : Document)
           (entry : string * list string) : Document :=
  let '(tag, attrs) := entry in
  let attr0 := default "undefined" (head attrs) in
  let nodes := querySelectorAll tag attr0 d in
  foldl (λ d' el, updateElement (rewriteAttrs baseRawDirUrl attrs) el d')
        d nodes.

(** [rewriteDocument(doc, baseRawDirUrl)]. *)
Definition rewriteDocument (d : Document) (baseRawDirUrl : string)
  : Document :=
  foldl (rewriteEntry baseRawDirUrl) d URL_ATTRS.

(** [DOMParser.parseFromString(text, 'text/html')] and the [outerHTML]
    getter of the root element. *)
Variable parseFromString : string → Document.
Variable outerHTML : Document → string.

(** [rewriteHtml(htmlText, baseRawDirUrl)]. *)
Definition rewriteHtml (htmlText baseRawDirUrl : string) : string :=
  let doc := parseFromString htmlText in
  let doc' := rewriteDocument doc baseRawDirUrl in
  "<!DOCTYPE html>" +:+ String "010" "" +:+ outerHTML doc'.

End WithURL.

End Rewrite.

(* ===================================================================== *)
(** ** Standard reference resolution                                      *)
(* ===================================================================== *)

(** Modelled from the spec: the platform's [URL] constructor, which
    [resolveUrl] calls and the repository does not define.  The spec asks
    for "standard relative-URL resolution semantics (., .., query/fragment
    preservation)"; this is the reference resolution of RFC 3986, section
    5.2 (strict), on the five components of appendix B.  The constructor
    fails when the base carries no scheme.  The normalisations a browser
    adds on top (percent-encoding, host case, default ports) are not part
    of this model. *)
Module Rfc3986.

Record Components := mkComponents {
  scheme : option string;
  authority : option string;
  path : string;
  query : option string;
  fragment : option string
}.

(** The longest prefix without a character of [stop], and the rest. *)
Fixpoint span (stop : ascii → bool) (s : string) : string * string :=
  match s with
  | EmptyString => (EmptyString, EmptyString)
  | String c r =>
      if stop c then (EmptyString, s)
      else let '(a, b) := span stop r in (String c a, b)
  end.

Definition one_of (cs : string) (c : ascii) : bool := Js.includes_char c cs.

Fixpoint dropChars (n : nat) (s : string) : string :=
  match n, s with
  | S m, String _ r => dropChars m r
  | _, _ => s
  end.

Definition is_alpha (c : ascii) : bool :=
  let n := nat_of_ascii c in
  ((65 <=? n) && (n <=? 90)) || ((97 <=? n) && (n <=? 122)).

Definition is_scheme_char (c : ascii) : bool :=
  let n := nat_of_ascii c in
  is_alpha c || ((48 <=? n) && (n <=? 57)) || one_of "+-." c.

Fixpoint all_chars (p : ascii → bool) (s : string) : bool :=
  match s with
  | EmptyString => true
  | String c r => p c && all_chars p r
  end.

Definition valid_scheme (s : string) : bool :=
  match s with
  | EmptyString => false
  | String c r => is_alpha c && all_chars is_scheme_char r
  end.

(** Appendix B: scheme, authority, path, query, fragment. *)
Definition parse (s : string) : Components :=
  let '(sch, s1) :=
    match span (one_of ":/?#") s with
    | (pre, String ":" rest) =>
        if valid_scheme pre then (Some pre, rest) else (None, s)
    | _ => (None, s)
    end in
  let '(auth, s2) :=
    if Js.startsWith s1 "//"
    then let '(a, r) := span (one_of "/?#") (dropChars 2 s1) in (Some a, r)
    else (None, s1) in
  let '(pth, s3) := span (one_of "?#") s2 in
  let '(qry, s4) :=
    match s3 with
    | String "?" r => let '(q, r') := span (one_of "#") r in (Some q, r')
    | _ => (None, s3)
    end in
  let frg := match s4 with String "#" r => Some r | _ => None end in
  mkComponents sch auth pth qry frg.

(** Section 5.2.4: "removing the last segment and its preceding /". *)
Definition remove_last_segment (output : string) : string :=
  let '(_, r) := span (one_of "/") (String.rev output) in
  String.rev (dropChars 1 r).

(** The first path segment of the input, with its initial "/" if any. *)
Definition first_segment (input : string) : string * string :=
  match input with
  | String "/" r => let '(seg, rest) := span (one_of "/") r in
                    (String "/" seg, rest)
  | _ => span (one_of "/") input
  end.

(** Section 5.2.4, steps 2A to 2E; every step shortens the input, so its
    length plus one is enough fuel. *)
Fixpoint remove_dots_go (fuel : nat) (input output : string) : string :=
  match fuel with
  | O => output +:+ input
  | S f =>
      if String.eqb input "" then output
      else if Js.startsWith input "../"
      then remove_dots_go f (dropChars 3 input) output
      else if Js.startsWith input "./"
      then remove_dots_go f (dropChars 2 input) output
      else if Js.startsWith input "/./"
      then remove_dots_go f (dropChars 2 input) output
      else if String.eqb input "/."
      then remove_dots_go f "/" output
      else if Js.startsWith input "/../"
      then remove_dots_go f (dropChars 3 input) (remove_last_segment output)
      else if String.eqb input "/.."
      then remove_dots_go f "/" (remove_last_segment output)
      else if String.eqb input "." || String.eqb input ".."
      then output
      else let '(seg, rest) := first_segment input in
           remove_dots_go f rest (output +:+ seg)
  end.

Definition remove_dot_segments (p : string) : string :=
  remove_dots_go (S (String.length p)) p "".

(** Section 5.2.3. *)
Definition merge (base : Components) (rpath : string) : string :=
  if bool_decide (is_Some (authority base)) && String.eqb (path base) ""
  then "/" +:+ rpath
  else let '(_, r) := span (one_of "/") (String.rev (path base)) in
       String.rev r +:+ rpath.

(** Section 5.2.2, with a strict parser. *)
Definition transform (r base : Components) : Components :=
  match scheme r with
  | Some _ =>
      mkComponents (scheme r) (authority r) (remove_dot_segments (path r))
                   (query r) (fragment r)
  | None =>
      match authority r with
      | Some _ =>
          mkComponents (scheme base) (authority r)
                       (remove_dot_segments (path r)) (query r) (fragment r)
      | None =>
          if String.eqb (path r) ""
          then mkComponents (scheme base) (authority base) (path base)
                 (match query r with Some q => Some q | None => query base end)
                 (fragment r)
          else if Js.startsWith (path r) "/"
          then mkComponents (scheme base) (authority base)
                 (remove_dot_segments (path r)) (query r) (fragment r)
          else mkComponents (scheme base) (authority base)
                 (remove_dot_segments (merge base (path r)))
                 (query r) (fragment r)
      end
  end.

(** Section 5.3. *)
Definition recompose (c : Components) : string :=
  (match scheme c with Some s => s +:+ ":" | None => "" end)
  +:+ (match authority c with Some a => "//" +:+ a | None => "" end)
  +:+ path c
  +:+ (match query c with Some q => "?" +:+ q | None => "" end)
  +:+ (match fragment c with Some f => "#" +:+ f | None => "" end).

(** Modelled from the spec: [new URL(relative, base).href], which the
    repository calls and does not define, as standard relative-URL
    resolution; [None] is the [TypeError] of the constructor. *)
Definition href (relative base : string) : option string :=
  let b := parse base in
  match scheme b with
  | None => None
  | Some _ => Some (recompose (transform (parse relative) b))
  end.

End Rfc3986.

(* ===================================================================== *)
(** ** [main.js]                                                          *)
(* ===================================================================== *)

Module Main.

(** *** Values *)

(** A thrown [Error]; only its [message] is ever read. *)
Inductive Exn := Error (message : string).

Definition message (e : Exn) : string := let 'Error m := e in m.

(** What [api.getRepoInfo] resolves to. *)
Record RepoInfo := mkRepoInfo {
  default_branch : string;
  full_name : string
}.

(** One entry of a directory listing, as [api.listContents] builds it. *)
Record Item := mkItem {
  item_name : string;
  item_path : string;
  item_type : string;
  item_download_url : option string
}.

(** The [state] object.  [previewPath] and [fileDates] are [None] when the
    property is absent, as it is in the object [doLoadRepo] assigns. *)
Record State := mkState {
  owner : string;
  repo : string;
  ref : string;
  path : string;
  previewPath : option string;
  listing : list Item;
  fileDates : option (gmap string string);
  loaded : bool
}.

Definition initialState : State :=
  mkState "" "" "" "" (Some "") [] (Some ∅) false.

Definition with_path (p : string) (s : State) : State :=
  mkState (owner s) (repo s) (ref s) p (previewPath s) (listing s)
          (fileDates s) (loaded s).

Definition with_listing (l : list Item) (s : State) : State :=
  mkState (owner s) (repo s) (ref s) (path s) (previewPath s) l
          (fileDates s) (loaded s).

Definition with_fileDates (d : gmap string string) (s : State) : State :=
  mkState (owner s) (repo s) (ref s) (path s) (previewPath s) (listing s)
          (Some d) (loaded s).

Definition with_previewPath (p : string) (s : State) : State :=
  mkState (owner s) (repo s) (ref s) (path s) (Some p) (listing s)
          (fileDates s) (loaded s).

(** The part of the page the controller writes to, through [ui.js]:
    the two inputs and the filter box, the error line, the loading
    indicator, the breadcrumb, and the arguments of the last
    [renderFileList] call. *)
Record Ui := mkUi {
  repoInputValue : string;
  branchInputValue : string;
  fileFilterValue : string;
  errorText : string;
  loadingShown : bool;
  breadcrumb : list string;
  fileListItems : list Item;
  fileListFilter : string;
  fileListSelected : option string
}.

(** A call that leaves the program through [api.js]. *)
Inductive Request :=
| GetRepoInfo (o r : string)
| ListContents (o r p rf : string)
| GetFileContent (o r p rf : string).

(** Everything a transition reads or writes: the state object, the three
    caches, the query parameters of [window.location], the page, and the
    requests sent so far. *)
Record World := mkWorld {
  state : State;
  repoCache : gmap string RepoInfo;
  listCache : gmap string (list Item);
  fileCache : gmap string string;
  searchParams : list (string * string);
  ui : Ui;
  requests : list Request
}.

Definition set_state (f : State → State) (w : World) : World :=
  mkWorld (f (state w)) (repoCache w) (listCache w) (fileCache w)
          (searchParams w) (ui w) (requests w).

Definition set_repoCache (c : gmap string RepoInfo) (w : World) : World :=
  mkWorld (state w) c (listCache w) (fileCache w)
          (searchParams w) (ui w) (requests w).

Definition set_listCache (c : gmap string (list Item)) (w : World) : World :=
  mkWorld (state w) (repoCache w) c (fileCache w)
          (searchParams w) (ui w) (requests w).

Definition set_fileCache (c : gmap string string) (w : World) : World :=
  mkWorld (state w) (repoCache w) (listCache w) c
          (searchParams w) (ui w) (requests w).

Definition set_searchParams (q : list (string * string)) (w : World)
  : World :=
  mkWorld (state w) (repoCache w) (listCache w) (fileCache w)
          q (ui w) (requests w).

Definition set_ui (f : Ui → Ui) (w : World) : World :=
  mkWorld (state w) (repoCache w) (listCache w) (fileCache w)
          (searchParams w) (f (ui w)) (requests w).

Definition push_request (rq : Request) (w : World) : World :=
  mkWorld (state w) (repoCache w) (listCache w) (fileCache w)
          (searchParams w) (ui w) (requests w ++ [rq]).

(** *** Control: completion or exception, over the world *)

Inductive Res (A : Type) := Ok (a : A) | Throw (e : Exn).
Arguments Ok {A} a.
Arguments Throw {A} e.

Definition M (A : Type) : Type := World → Res A * World.

Definition ret {A} (a : A) : M A := λ w, (Ok a, w).

Definition bind {A B} (m : M A) (k : A → M B) : M B :=
  λ w, match m w with
       | (Ok a, w') => k a w'
       | (Throw e, w') => (Throw e, w')
       end.

Definition gets {A} (f : World → A) : M A := λ w, (Ok (f w), w).

Definition modify (f : World → World) : M unit := λ w, (Ok tt, f w).

(** [try { body } catch (e) { handler e }]. *)
Definition tryCatch {A} (body : M A) (handler : Exn → M A) : M A :=
  λ w, match body w with
       | (Ok a, w') => (Ok a, w')
       | (Throw e, w') => handler e w'
       end.

(** [try { body } finally { fin }]. *)
Definition tryFinally {A} (body : M A) (fin : M unit) : M A :=
  λ w, match body w with
       | (r, w') => match fin w' with
                    | (Ok _, w'') => (r, w'')
                    | (Throw e, w'') => (Throw e, w'')
                    end
       end.

Notation "'let*' x ':=' m 'in' k" := (bind m (λ x, k))
  (at level 10, x name, m at level 100, k at level 200).
Notation "m >> k" := (bind m (λ _, k))
  (at level 100, k at level 200, right associativity).

(** The promises [items.map(async ...)] creates: every call is started,
    in order, whatever the others do. *)
Fixpoint startAll {A} (calls : list (M A)) : World → list (Res A) * World :=
  λ w, match calls with
       | [] => ([], w)
       | c :: rest => let '(r, w1) := c w in
                      let '(rs, w2) := startAll rest w1 in
                      (r :: rs, w2)
       end.

(** The outcome of [Promise.all] on settled promises: the values in input
    order, or a rejection when one of them rejected.  Which rejection
    wins depends on the order of settlement; the first in input order is
    taken here. *)
Fixpoint allSettledOk {A} (rs : list (Res A)) : Res (list A) :=
  match rs with
  | [] => Ok []
  | Throw e :: _ => Throw e
  | Ok a :: rest => match allSettledOk rest with
                    | Ok l => Ok (a :: l)
                    | Throw e => Throw e
                    end
  end.

Definition promiseAll {A} (calls : list (M A)) : M (list A) :=
  λ w, let '(rs, w') := startAll calls w in (allSettledOk rs, w').

(** [Object.fromEntries]: a later entry overwrites an earlier one. *)
Definition fromEntries (es : list (string * string)) : gmap string string :=
  foldl (λ m e, <[e.1 := e.2]> m) ∅ es.

(** *** [URLSearchParams] *)

Fixpoint params_get (name : string) (q : list (string * string))
  : option string :=
  match q with
  | [] => None
  | (n, v) :: rest => if String.eqb n name then Some v
                      else params_get name rest
  end.

Definition params_delete (name : string) (q : list (string * string))
  : list (string * string) :=
  List.filter (λ nv, negb (String.eqb nv.1 name)) q.

(** [set]: overwrite the first pair of that name and drop the others, or
    append. *)
Fixpoint params_set (name value : string) (q : list (string * string))
  : list (string * string) :=
  match q with
  | [] => [(name, value)]
  | (n, v) :: rest =>
      if String.eqb n name then (n, value) :: params_delete name rest
      else (n, v) :: params_set name value rest
  end.

(** *** [ui.js], as far as the controller drives it *)

Definition showLoading (show : bool) : M unit :=
  modify (set_ui (λ u,
    mkUi (repoInputValue u) (branchInputValue u) (fileFilterValue u)
         (errorText u) show (breadcrumb u) (fileListItems u)
         (fileListFilter u) (fileListSelected u))).

Definition showError (msg : string) : M unit :=
  modify (set_ui (λ u,
    mkUi (repoInputValue u) (branchInputValue u) (fileFilterValue u)
         msg (loadingShown u) (breadcrumb u) (fileListItems u)
         (fileListFilter u) (fileListSelected u))).

Definition clearError : M unit := showError "".

Definition renderBreadcrumb (segments : list string) : M unit :=
  modify (set_ui (λ u,
    mkUi (repoInputValue u) (branchInputValue u) (fileFilterValue u)
         (errorText u) (loadingShown u) segments (fileListItems u)
         (fileListFilter u) (fileListSelected u))).

Definition renderFileList (items : list Item) (filter : string)
           (selectedPath : option string) : M unit :=
  modify (set_ui (λ u,
    mkUi (repoInputValue u) (branchInputValue u) (fileFilterValue u)
         (errorText u) (loadingShown u) (breadcrumb u) items
         filter selectedPath)).

Definition getRepoInput : M string :=
  gets (λ w, Js.trim (repoInputValue (ui w))).

Definition getBranchInput : M string :=
  gets (λ w, Js.trim (branchInputValue (ui w))).

Definition setRepoInput (value : string) : M unit :=
  modify (set_ui (λ u,
    mkUi value (branchInputValue u) (fileFilterValue u)
         (errorText u) (loadingShown u) (breadcrumb u) (fileListItems u)
         (fileListFilter u) (fileListSelected u))).

Definition setBranchInput (value : string) : M unit :=
  modify (set_ui (λ u,
    mkUi (repoInputValue u) value (fileFilterValue u)
         (errorText u) (loadingShown u) (breadcrumb u) (fileListItems u)
         (fileListFilter u) (fileListSelected u))).

(** *** The controller *)

(** [cacheKey(owner, repo, path, ref)]; [path || ''] is [path]. *)
Definition cacheKey (o r p rf : string) : string :=
  o +:+ "/" +:+ r +:+ ":" +:+ rf +:+ ":" +:+ p.

(** [applyStateToUrl()]. *)
Definition applyStateToUrl : M unit :=
  modify (λ w,
    let s := state w in
    let q0 := searchParams w in
    let q1 := if Js.truthy (owner s) && Js.truthy (repo s)
              then params_set "repo" (owner s +:+ "/" +:+ repo s) q0
              else params_delete "repo" q0 in
    let q2 := if Js.truthy (ref s) then params_set "ref" (ref s) q1
              else params_delete "ref" q1 in
    let q3 := if Js.truthy (path s) then params_set "path" (path s) q2
              else params_delete "path" q2 in
    set_searchParams q3 w).

(** [parseQueryParams()]: owner, repo, ref, path. *)
Definition parseQueryParams (w : World)
  : string * string * string * string :=
  let params := searchParams w in
  let repoParam := default "" (params_get "repo" params) in
  let rf := default "" (params_get "ref" params) in
  let p := default "" (params_get "path" params) in
  let parts := if Js.truthy repoParam
               then Js.filterBoolean (Js.split "/" repoParam) else [] in
  match parts with
  | [] => ("", "", rf, p)
  | [o] => (o, "", rf, p)
  | o :: rest => (o, Js.join "/" rest, rf, p)
  end.

(** The network side of [api.js], as far as [main.js] calls what it
    exports.  Each function also receives the number of requests sent
    before it, so that the same request may be answered differently at
    different times. *)
Record Api := mkApi {
  getRepoInfo : nat → string → string → Res RepoInfo;
  listContents : nat → string → string → string → string → Res (list Item);
  getFileContent :
    nat → string → string → string → string → Res (string * string)
}.

(** [api.js] exports no [getLatestCommitDate]: on the module namespace
    object [api] the property is [undefined], and the call
    [api.getLatestCommitDate(...)] throws a [TypeError].  The message is
    the engine's; this is how V8 and SpiderMonkey word it. *)
Definition notAFunction : Exn :=
  Error "api.getLatestCommitDate is not a function".

(** Send [rq] and settle with the service's answer. *)
Definition request {A} (rq : Request) (answer : nat → Res A) : M A :=
  λ w, (answer (length (requests w)), push_request rq w).

Section Controller.

Variable api : Api.

(** [loadRepoInfo(owner, repo)]. *)
Definition loadRepoInfo (o r : string) : M RepoInfo :=
  let key := o +:+ "/" +:+ r in
  λ w, match repoCache w !! key with
       | Some info => (Ok info, w)
       | None =>
           (let* info := request (GetRepoInfo o r)
                           (λ t, getRepoInfo api t o r) in
            modify (λ w', set_repoCache (<[key := info]> (repoCache w')) w') >>
            ret info) w
       end.

(** [loadListing(owner, repo, path, ref)]. *)
Definition loadListing (o r p rf : string) : M (list Item) :=
  let key := cacheKey o r p rf in
  λ w, match listCache w !! key with
       | Some items => (Ok items, w)
       | None =>
           (let* items := request (ListContents o r p rf)
                            (λ t, listContents api t o r p rf) in
            modify (λ w', set_listCache (<[key := items]> (listCache w')) w') >>
            ret items) w
       end.

(** [loadFileContent(owner, repo, path, ref)]. *)
Definition loadFileContent (o r p rf : string) : M string :=
  let key := cacheKey o r p rf in
  λ w, match fileCache w !! key with
       | Some text => (Ok text, w)
       | None =>
           (let* res := request (GetFileContent o r p rf)
                          (λ t, getFileContent api t o r p rf) in
            modify (λ w', set_fileCache (<[key := res.1]> (fileCache w')) w') >>
            ret res.1) w
       end.

(** The callback of [items.map] in [openPath]:
    [async (item) => [item.path, await api.getLatestCommitDate(...)]].
    The call throws before anything is sent, so the promise of the
    callback is rejected with the [TypeError]. *)
Definition dateEntry (item : Item) : M (string * string) :=
  λ w, (Throw notAFunction, w).

(** [openPath(path)]. *)
Definition openPath (p : string) : M unit :=
  λ w,
    if negb (loaded (state w)) || negb (Js.truthy (owner (state w)))
       || negb (Js.truthy (repo (state w)))
    then (Ok tt, w)
    else
      (modify (set_state (with_path p)) >>
       applyStateToUrl >>
       renderBreadcrumb (if Js.truthy p then Js.split "/" p else []) >>
       showLoading true >>
       clearError >>
       tryFinally
         (tryCatch
            (let* s := gets state in
             let* items := loadListing (owner s) (repo s) p (ref s) in
             modify (set_state (with_listing items)) >>
             let* dateEntries := promiseAll (map dateEntry items) in
             modify (set_state (with_fileDates (fromEntries dateEntries))) >>
             let* flt := gets (λ w', fileFilterValue (ui w')) in
             let* sel := gets (λ w', previewPath (state w')) in
             renderFileList items flt sel)
            (λ e,
               showError (if Js.truthy (message e) then message e
                          else "Failed to load") >>
               modify (set_state (with_fileDates ∅)) >>
               renderFileList [] "" None))
         (showLoading false)) w.

(** [doLoadRepo()]. *)
Definition doLoadRepo : M unit :=
  let* input := getRepoInput in
  let* branchInput := getBranchInput in
  let parts := Js.filterBoolean (map Js.trim (Js.split "/" input)) in
  if length parts <? 2
  then showError "Enter owner/repo (e.g. adalenv/some-repo)"
  else
    let o := hd "" parts in
    let r := Js.join "/" (tl parts) in
    clearError >>
    showLoading true >>
    tryFinally
      (let* info := loadRepoInfo o r in
       let rf := if Js.truthy branchInput then branchInput
                 else default_branch info in
       modify (set_state (λ _, mkState o r rf "" None [] None true)) >>
       setBranchInput rf >>
       setRepoInput (o +:+ "/" +:+ r) >>
       applyStateToUrl >>
       openPath "")
      (showLoading false).

(** [onSelect(itemPath, type)]. *)
Definition onSelect (itemPath type : string) : M unit :=
  if String.eqb type "dir" then openPath itemPath
  else
    let name := Js.popOrEmpty (Js.split "/" itemPath) in
    let ext := Js.toLowerCase (Js.popOrEmpty (Js.split "." name)) in
    if negb (String.eqb ext "html") && negb (String.eqb ext "htm")
    then showError "Only .html / .htm files can be previewed."
    else
      clearError >>
      modify (set_state (with_previewPath itemPath)) >>
      let* s := gets state in
      let* flt := gets (λ w, fileFilterValue (ui w)) in
      renderFileList (listing s) flt (previewPath s).

(** The [popstate] listener that [init] installs; [path || ''] is
    [path].  The listener starts [openPath] without awaiting it; the
    call is run to its end here. *)
Definition onPopState : M unit :=
  λ w,
    let '(o, r, rf, p) := parseQueryParams w in
    if negb (Js.truthy o) || negb (Js.truthy r) then (Ok tt, w)
    else
      (modify (set_state (λ s,
         mkState o r rf p (previewPath s) (listing s) (fileDates s) true)) >>
       openPath p) w.

End Controller.

End Main.

(* ===================================================================== *)
(** ** Vocabulary of the statements                                       *)
(* ===================================================================== *)

Module Props.
Import Js Rewrite.

(** A trimmed reference that spells [http://] or [https://] in some
    letter case other than all lower case. *)
Definition mixedCaseHttp (t : string) : bool :=
  (startsWith (toLowerCase t) "http://"
   || startsWith (toLowerCase t) "https://")
  && negb (startsWith t "http://" || startsWith t "https://").

(** A trimmed reference that is protocol-relative. *)
Definition protocolRelative (t : string) : bool := startsWith t "//".

(** The base "with a trailing separator appended if absent", written from
    the words of the spec rather than from [resolveUrl]. *)
Fixpoint withTrailingSeparator (b : string) : string :=
  match b with
  | EmptyString => "/"
  | String c EmptyString => if Ascii.eqb c "/" then b else String c "/"
  | String c r => String c (withTrailingSeparator r)
  end.

(** The last code unit of a string. *)
Fixpoint lastChar (s : string) : option ascii :=
  match s with
  | EmptyString => None
  | String c r => match lastChar r with Some d => Some d | None => Some c end
  end.

(** [<html><head></head><body><video poster="thumb.png"></video></body></html>] *)
Definition posterOnlyDocument : Document :=
  mkDocument (mkElement "html" [] [inl 1; inl 2])
    [ mkElement "head" [] [];
      mkElement "body" [] [inl 3];
      mkElement "video" [("poster", "thumb.png")] [] ].

(** The same document with [src="clip.mp4"] on the video element. *)
Definition posterWithSrcDocument : Document :=
  mkDocument (mkElement "html" [] [inl 1; inl 2])
    [ mkElement "head" [] [];
      mkElement "body" [] [inl 3];
      mkElement "video" [("src", "clip.mp4"); ("poster", "thumb.png")] [] ].

(** A page with one reference of each special class and one relative one. *)
Definition sampleDocument : Document :=
  mkDocument (mkElement "html" [] [inl 1; inl 2])
    [ mkElement "head" [] [inl 3];
      mkElement "body" [] [inl 4; inl 5; inl 6; inl 7];
      mkElement "link" [("rel", "stylesheet"); ("href", "../x.css")] [];
      mkElement "a" [("href", "#top")] [inr "top"];
      mkElement "img" [("src", "https://cdn.example/logo.png"); ("alt", "")] [];
      mkElement "a" [("href", "mailto:me@example.org")] [inr "mail"];
      mkElement "script" [("src", "js/app.js")] [] ].

Section WithURL.
Variable URL : string → string → option string.
Variable base : string.

(** What one [[tag, attrs]] entry does to an element object. *)
Definition entryOnElement (entry : string * list string) (e : Element)
  : Element :=
  if matchesSelector entry.1 (default "undefined" (head entry.2)) e
  then rewriteAttrs URL base entry.2 e else e.

(** What the whole pass does to an element object. *)
Definition rewriteElement (e : Element) : Element :=
  foldl (λ e' entry, entryOnElement entry e') e URL_ATTRS.

End WithURL.

End Props.

(* --------------------------------------------------------------------- *)
(** *** Navigation                                                        *)
(* --------------------------------------------------------------------- *)

Module Nav.
Import Js Main.

(** The tuple the query string stands for. *)
Definition coordinate (s : State) : string * string * string * string :=
  (owner s, repo s, ref s, path s).

(** Write the state to the query string, then read the query string. *)
Definition roundTrip (w : World) : string * string * string * string :=
  parseQueryParams (applyStateToUrl w).2.

(** Owner and repository names that [owner/repo] can carry: the owner is
    not empty and has no [/]; the repository name has no empty segment
    (it is not empty and has no leading, trailing or doubled [/]). *)
Definition shareableNames (o r : string) : bool :=
  truthy o && negb (includes_char "/" o) && forallb truthy (split "/" r).

Definition shareable (s : State) : bool := shareableNames (owner s) (repo s).

(** A string that is not empty and has no [/]. *)
Definition segment (x : string) : Prop :=
  truthy x = true ∧ includes_char "/" x = false.

Definition emptyUi : Ui := mkUi "" "" "" "" false [] [] "" None.

(** A world with the given state, empty caches, an empty query string, a
    blank page and no request sent. *)
Definition worldOf (s : State) : World :=
  mkWorld s ∅ ∅ ∅ [] emptyUi [].

(** The worlds a page can be in.  A page starts with the state object the
    module defines.  The state object is assigned or written in
    [doLoadRepo], [openPath], [onSelect] and the [popstate] listener, and
    nowhere else: the other handlers of [main.js] ([initFromUrl], the
    filter and dropdown callbacks, [openPreviewInNewTab]) reach it through
    these only.  Whatever else happens (typing, a new address, a cache
    fill, an error shown) leaves the state object as it is. *)
Inductive reachable (api : Api) : World → Prop :=
| reach_start w :
    state w = initialState → reachable api w
| reach_other w w' :
    reachable api w → state w' = state w → reachable api w'
| reach_load w :
    reachable api w → reachable api (doLoadRepo api w).2
| reach_open w p :
    reachable api w → reachable api (openPath api p w).2
| reach_select w itemPath type :
    reachable api w → reachable api (onSelect api itemPath type w).2
| reach_popstate w :
    reachable api w → reachable api (onPopState api w).2.

(** A fresh page at an address whose [repo] parameter has a doubled
    [/]. *)
Definition linkedPage : World :=
  mkWorld initialState ∅ ∅ ∅
          [("repo", "adalenv//Preview/x"); ("ref", "dev"); ("path", "docs")]
          emptyUi [].

(** A state whose owner contains a [/]. *)
Definition slashOwnerState : State :=
  mkState "a/b" "c" "main" "docs" (Some "") [] (Some ∅) true.

(** A state as [doLoadRepo] builds it from the input [adalenv/Preview]. *)
Definition previewState : State :=
  mkState "adalenv" "Preview" "main" "src/ui" None [] None true.

(** *** Cache tiers *)

(** After [load] has resolved, [again] (a call with the same key) returns
    the stored value and leaves the world, the request log included, as it
    is; the two calls together sent at most one request. *)
Definition secondCallHits {A} (load again : M A) (w : World) : Prop :=
  ∀ v w1, load w = (Ok v, w1) →
    again w1 = (Ok v, w1)
    ∧ length (requests w1) ≤ S (length (requests w)).

(** Get-or-fill, in the words of the claim.  [load] looks [key] up in
    the cache [cache], which [store] writes.  On a hit it returns the
    stored value and does nothing else.  On a miss it invokes the
    producer, which sends [rq] and settles as [produce t] does when [t]
    requests were sent before: if the producer resolves, what [keep]
    takes of its value is stored under [key] and returned; if it fails,
    the error is propagated and nothing is stored. *)
Definition getOrFill {A V} (load : M V) (cache : World → gmap string V)
           (store : gmap string V → World → World) (key : string)
           (rq : Request) (produce : nat → Res A) (keep : A → V)
           (w : World) : Prop :=
  match cache w !! key with
  | Some v => load w = (Ok v, w)
  | None =>
      match produce (length (requests w)) with
      | Ok a => load w = (Ok (keep a),
                          store (<[key := keep a]> (cache w))
                                (push_request rq w))
      | Throw e => load w = (Throw e, push_request rq w)
      end
  end.

(** When the producer fails on a miss, [load] fails with the producer's
    error, the only change to the world is the request [rq] in the log
    (nothing is stored under [key]), and the next [load] invokes the
    producer again: it sends [rq] once more and settles as the producer's
    new answer does. *)
Definition failedFillIsRetried {A V} (load : M V)
           (cache : World → gmap string V) (key : string) (rq : Request)
           (produce : nat → Res A) (keep : A → V) (w : World) : Prop :=
  ∀ e, cache w !! key = None →
       produce (length (requests w)) = Throw e →
       load w = (Throw e, push_request rq w)
       ∧ cache (push_request rq w) !! key = None
       ∧ (load (push_request rq w)).1
         = match produce (S (length (requests w))) with
           | Ok a => Ok (keep a)
           | Throw e' => Throw e'
           end
       ∧ requests (load (push_request rq w)).2 = requests w ++ [rq; rq].

(** *** A small repository *)

Definition rootItems : list Item :=
  [ mkItem "index.html" "index.html" "file" (Some "https://raw/index.html");
    mkItem "docs" "docs" "dir" None;
    mkItem "src" "src" "dir" None ].

Definition docsItems : list Item :=
  [ mkItem "guide.md" "docs/guide.md" "file" (Some "https://raw/guide.md");
    mkItem "img" "docs/img" "dir" None ].

Definition srcItems : list Item :=
  [ mkItem "main.js" "src/main.js" "file" (Some "https://raw/main.js") ].

Definition notFound : Exn :=
  Error "Not found. Check owner/repo, branch, and path.".

(** A service for that repository: three directories, every other path is
    not found. *)
Definition demoApi : Api :=
  mkApi
    (λ _ _ _, Ok (mkRepoInfo "main" "adalenv/Preview"))
    (λ _ _ _ p _,
       if String.eqb p "" then Ok rootItems
       else if String.eqb p "docs" then Ok docsItems
       else if String.eqb p "src" then Ok srcItems
       else Throw notFound)
    (λ _ _ _ p _, Ok ("<p>" +:+ p +:+ "</p>", "https://raw/" +:+ p)).

(** The same service, except that its first answer to anything is a
    failure. *)
Definition flakyApi : Api :=
  mkApi
    (λ t o r, if t =? 0 then Throw notFound else getRepoInfo demoApi t o r)
    (λ t o r p rf,
       if t =? 0 then Throw notFound else listContents demoApi t o r p rf)
    (λ t o r p rf,
       if t =? 0 then Throw notFound else getFileContent demoApi t o r p rf).

(** The browser at the root of [adalenv/Preview], listing shown, nothing
    selected. *)
Definition atRoot : World :=
  mkWorld (mkState "adalenv" "Preview" "main" "" None rootItems (Some ∅) true)
          ∅ ∅ ∅
          [("repo", "adalenv/Preview"); ("ref", "main")]
          (mkUi "adalenv/Preview" "main" "" "" false [] rootItems "" None)
          [].

(** *** Phases of [openPath] *)

(** The guard at the top of [openPath], negated. *)
Definition repositoryLoaded (s : State) : bool :=
  loaded s && truthy (owner s) && truthy (repo s).

(** The world when the listing fetch starts: path and query string
    written, breadcrumb drawn, loading shown, error line cleared. *)
Definition beforeFetch (p : string) (w : World) : World :=
  ((modify (set_state (with_path p)) >>
    applyStateToUrl >>
    renderBreadcrumb (if truthy p then split "/" p else []) >>
    showLoading true >>
    clearError) w).2.

(** What the [catch] and [finally] clauses make of the world. *)
Definition afterCatch (e : Exn) (w : World) : World :=
  ((showError (if truthy (message e) then message e else "Failed to load") >>
    modify (set_state (with_fileDates ∅)) >>
    renderFileList [] "" None >>
    showLoading false) w).2.

(** What the end of the [try] block and the [finally] clause make of the
    world once [Promise.all] has resolved with [entries]. *)
Definition afterDates (items : list Item) (entries : list (string * string))
           (w : World) : World :=
  ((modify (set_state (with_fileDates (fromEntries entries))) >>
    (let* flt := gets (λ w', fileFilterValue (ui w')) in
     let* sel := gets (λ w', previewPath (state w')) in
     renderFileList items flt sel) >>
    showLoading false) w).2.

(** The world at the end of [openPath] after a listing fetch that
    resolved with [items] in world [w1]: [Promise.all] resolves on an
    empty array and is rejected by the first callback otherwise. *)
Definition afterListing (items : list Item) (w1 : World) : World :=
  let w2 := set_state (with_listing items) w1 in
  match items with
  | [] => afterDates [] [] w2
  | _ :: _ => afterCatch notAFunction w2
  end.

(** *** File dates *)

(** C1 as stated, for an [openPath] that ended in world [w'] after a
    listing fetch that resolved with [items]: [state.fileDates] maps the
    path of every listed entry to an indicator. *)
Definition datesExposed (items : list Item) (w' : World) : Prop :=
  ∀ item, item ∈ items →
    ∃ fd d, fileDates (state w') = Some fd ∧ fd !! item_path item = Some d.

(** *** The selected file *)

(** The test [onSelect] applies to a path before it selects it. *)
Definition previewable (itemPath : string) : bool :=
  let name := popOrEmpty (split "/" itemPath) in
  let ext := toLowerCase (popOrEmpty (split "." name)) in
  String.eqb ext "html" || String.eqb ext "htm".

(** The selected path, if [previewPath] is set (present and non-empty). *)
Definition selected (s : State) : option string :=
  match previewPath s with
  | Some p => if truthy p then Some p else None
  | None => None
  end.


(** C3 as amended: a set [previewPath] passes the test of [onSelect]. *)
Definition previewIsPreviewable (s : State) : bool :=
  match selected s with
  | None => true
  | Some p => previewable p
  end.

(** *** Phases of [doLoadRepo] and [onSelect] *)

(** [input.split('/').map((s) => s.trim()).filter(Boolean)] on the
    repository box. *)
Definition repoInputParts (w : World) : list string :=
  filterBoolean (map trim (split "/" (trim (repoInputValue (ui w))))).

(** The world when the repository lookup starts. *)
Definition beforeRepoInfo (w : World) : World :=
  ((clearError >> showLoading true) w).2.

(** The revision [doLoadRepo] settles on. *)
Definition effectiveRef (w : World) (info : RepoInfo) : string :=
  if truthy (trim (branchInputValue (ui w)))
  then trim (branchInputValue (ui w)) else default_branch info.

(** The world after [doLoadRepo] has assigned the new state object and
    synchronised the inputs and the query string, before [openPath('')]. *)
Definition afterRepoInfo (w : World) (info : RepoInfo) (w1 : World) : World :=
  let o := hd "" (repoInputParts w) in
  let r := join "/" (tl (repoInputParts w)) in
  let rf := effectiveRef w info in
  ((modify (set_state (λ _, mkState o r rf "" None [] None true)) >>
    setBranchInput rf >>
    setRepoInput (o +:+ "/" +:+ r) >>
    applyStateToUrl) w1).2.

(** The world [onSelect] leaves when it accepts a file. *)
Definition afterSelect (itemPath : string) (w : World) : World :=
  ((clearError >>
    modify (set_state (with_previewPath itemPath)) >>
    (let* s := gets state in
     let* flt := gets (λ w', fileFilterValue (ui w')) in
     renderFileList (listing s) flt (previewPath s))) w).2.


End Nav.


(* ===================================================================== *)
(** ** Facts about the string primitives                                  *)
(* ===================================================================== *)

Module JsFacts.
Import Js.

Lemma append_cons (c : ascii) (s t : string) :
  String c s +:+ t = String c (s +:+ t).
Proof. reflexivity. Qed.

Lemma append_empty_l (t : string) : "" +:+ t = t.
Proof. reflexivity. Qed.

Lemma startsWith_cons (c d : ascii) (s p : string) :
  startsWith (String c s) (String d p) =
  bool_decide (d = c) && startsWith s p.
Proof.
  unfold startsWith; simpl.
  destruct (ascii_dec d c) as [->|Hne].
  - by rewrite bool_decide_eq_true_2.
  - by rewrite bool_decide_eq_false_2.
Qed.

Lemma startsWith_empty (p : string) :
  startsWith "" p = bool_decide (p = "").
Proof. by destruct p. Qed.

Lemma truthy_cons (c : ascii) (s : string) : truthy (String c s) = true.
Proof. reflexivity. Qed.

Lemma truthy_true (s : string) : truthy s = true ↔ s ≠ "".
Proof. destruct s; [|done]. by split. Qed.

Lemma truthy_false (s : string) : truthy s = false ↔ s = "".
Proof. destruct s; [done|]. by split. Qed.

(** The only code units that lower-case to [h] are [h] and [H]. *)
Lemma lower_char_h (c : ascii) :
  lower_char c = "h"%char → c = "h"%char ∨ c = "H"%char.
Proof.
  destruct c as [[] [] [] [] [] [] [] []]; vm_compute; intros H;
    first [discriminate H | by left | by right].
Qed.

(** Decide the comparisons of concrete code units in the goal. *)
Ltac decide_chars :=
  repeat match goal with
         | |- context [bool_decide (?a = ?b :> ascii)] =>
             let v := eval vm_compute in (bool_decide (a = b)) in
             change (bool_decide (a = b)) with v
         end;
  cbn [andb orb negb].

Lemma trim_empty : trim "" = "".
Proof. reflexivity. Qed.

End JsFacts.

(* ===================================================================== *)
(** ** The classifier                                                     *)
(* ===================================================================== *)

Module ClassifierFacts.
Import Js JsFacts Rewrite Props.

Lemma mixedCaseHttp_head (t : string) :
  mixedCaseHttp t = true →
  ∃ c r, t = String c r ∧ (c = "h"%char ∨ c = "H"%char).
Proof.
  unfold mixedCaseHttp. destruct t as [|c r]; [done|].
  intros [Hl _]%andb_true_iff. exists c, r. split; [done|].
  apply lower_char_h.
  change (toLowerCase (String c r))
    with (String (lower_char c) (toLowerCase r)) in Hl.
  rewrite !startsWith_cons in Hl.
  apply orb_true_iff in Hl as [Hl|Hl];
    apply andb_true_iff in Hl as [Hl _];
    by apply bool_decide_eq_true in Hl.
Qed.

Lemma not_special_nonempty (url : string) :
  isAbsoluteOrSpecial (Some url) = false → truthy url = true.
Proof. destruct url; [done|]. by rewrite truthy_cons. Qed.

End ClassifierFacts.

(** C10.  The absolute-scheme test of the classifier is a case-sensitive
    match on the lower-case prefixes: a reference whose trimmed text begins
    with [http://] or [https://] written with any capital letter, or with
    [//], is classified as rewritable, and the inner loop of the rewriter
    then replaces it with the resolver's output. *)
Theorem classifier_scheme_test_is_case_sensitive
        (URL : string → string → option string) (url : string) :
  Props.mixedCaseHttp (Js.trim url) = true
  ∨ Props.protocolRelative (Js.trim url) = true →
  Rewrite.isAbsoluteOrSpecial (Some url) = false
  ∧ ∀ base e attr,
      Rewrite.getAttr attr e = Some url →
      Rewrite.rewriteAttr URL base e attr
      = Rewrite.setAttr attr (Rewrite.resolveUrl URL url base) e.
Proof.
  intros Hcase.
  assert (Rewrite.isAbsoluteOrSpecial (Some url) = false) as Hcls.
  { destruct url as [|a s].
    { destruct Hcase as [H|H]; vm_compute in H; discriminate H. }
    unfold Rewrite.isAbsoluteOrSpecial.
    rewrite JsFacts.truthy_cons. simpl negb. cbv iota.
    remember (Js.trim (String a s)) as t eqn:Ht. clear Ht.
    destruct Hcase as [Hmix|Hrel].
    - destruct (ClassifierFacts.mixedCaseHttp_head _ Hmix)
        as (c & r & -> & [->| ->]).
      + unfold Props.mixedCaseHttp in Hmix.
        apply andb_true_iff in Hmix as [_ Hneg].
        apply negb_true_iff in Hneg. rewrite Hneg.
        rewrite !JsFacts.startsWith_cons. JsFacts.decide_chars; reflexivity.
      + rewrite !JsFacts.startsWith_cons. JsFacts.decide_chars; reflexivity.
    - unfold Props.protocolRelative in Hrel.
      destruct t as [|c r]; [done|].
      rewrite JsFacts.startsWith_cons in Hrel.
      apply andb_true_iff in Hrel as [<-%bool_decide_eq_true _].
      rewrite !JsFacts.startsWith_cons. JsFacts.decide_chars; reflexivity. }
  split; [done|].
  intros base e attr Hget. unfold Rewrite.rewriteAttr.
  by rewrite Hget, Hcls, (ClassifierFacts.not_special_nonempty _ Hcls).
Qed.

(** The two references named by C10. *)
Lemma classifier_scheme_test_examples :
  Rewrite.isAbsoluteOrSpecial (Some "HTTP://host/x") = false
  ∧ Rewrite.isAbsoluteOrSpecial (Some "//host/x") = false.
Proof.
  split.
  - apply (classifier_scheme_test_is_case_sensitive (λ _ _, None)
             "HTTP://host/x").
    left. vm_compute. reflexivity.
  - apply (classifier_scheme_test_is_case_sensitive (λ _ _, None)
             "//host/x").
    right. vm_compute. reflexivity.
Defined.

(* ===================================================================== *)
(** ** The document pass                                                  *)
(* ===================================================================== *)

Module RewriteFacts.
Import Js JsFacts Rewrite Props.

(** *** Attributes *)

Lemma getAttribute_setAttribute_ne (a b v : string) attrs :
  a ≠ b →
  getAttribute a (setAttribute b v attrs) = getAttribute a attrs.
Proof.
  intros Hne. induction attrs as [|[n w] rest IH]; simpl.
  - destruct (String.eqb_spec b a); [congruence|done].
  - destruct (String.eqb_spec n b) as [->|Hnb]; simpl.
    + destruct (String.eqb_spec b a); [congruence|done].
    + destruct (String.eqb_spec n a); [done|apply IH].
Qed.

Lemma getAttribute_setAttribute_eq (a v : string) attrs :
  getAttribute a (setAttribute a v attrs) = Some v.
Proof.
  induction attrs as [|[n w] rest IH]; simpl.
  - by rewrite String.eqb_refl.
  - destruct (String.eqb_spec n a) as [->|Hna]; simpl.
    + by rewrite String.eqb_refl.
    + destruct (String.eqb_spec n a); [congruence|apply IH].
Qed.

Lemma setAttribute_same (a v : string) attrs :
  getAttribute a attrs = Some v → setAttribute a v attrs = attrs.
Proof.
  induction attrs as [|[n w] rest IH]; simpl; [done|].
  destruct (String.eqb_spec n a) as [->|Hna].
  - by intros [= ->].
  - intros H. by rewrite IH.
Qed.

Lemma setAttribute_names (a v : string) attrs :
  is_Some (getAttribute a attrs) →
  (setAttribute a v attrs).*1 = attrs.*1.
Proof.
  induction attrs as [|[n w] rest IH]; simpl.
  - by intros [? [=]].
  - destruct (String.eqb_spec n a) as [->|Hna]; [done|].
    intros H. rewrite !fmap_cons. f_equal. by apply IH.
Qed.

(** *** The element table *)

Lemma elements_updateElement f i d :
  elements (updateElement f i d) = alter f i (elements d).
Proof. by destruct i. Qed.

Lemma elements_foldl_update f (nodes : list nat) d :
  elements (foldl (λ d' el, updateElement f el d') d nodes)
  = foldl (λ l el, alter f el l) (elements d) nodes.
Proof.
  revert d. induction nodes as [|i nodes IH]; intros d; simpl; [done|].
  by rewrite IH, elements_updateElement.
Qed.

Lemma foldl_alter_lookup (f : Element → Element) (nodes : list nat)
      (l : list Element) (i : nat) :
  NoDup nodes →
  foldl (λ l' el, alter f el l') l nodes !! i
  = if decide (i ∈ nodes) then f <$> l !! i else l !! i.
Proof.
  intros Hnd. revert l.
  induction Hnd as [|j nodes Hj Hnd IH]; intros l.
  - destruct (decide (i ∈ [])) as [Hin|_]; [|done].
    by apply elem_of_nil in Hin.
  - change (foldl (λ l' el, alter f el l') l (j :: nodes))
      with (foldl (λ l' el, alter f el l') (alter f j l) nodes).
    rewrite IH. destruct (decide (i = j)) as [->|Hij].
    + destruct (decide (j ∈ nodes)) as [?|_]; [done|].
      destruct (decide (j ∈ j :: nodes)) as [_|Hn].
      * apply list_lookup_alter_eq.
      * exfalso. apply Hn, list_elem_of_here.
    + rewrite list_lookup_alter_ne by done.
      destruct (decide (i ∈ nodes)) as [Hin|Hnin];
        destruct (decide (i ∈ j :: nodes)) as [Hin'|Hnin']; try done.
      * exfalso. by apply Hnin', list_elem_of_further.
      * apply elem_of_cons in Hin' as [?|?]; congruence.
Qed.

Lemma elem_of_selectFrom tag attr (k : nat) (es : list Element) (i : nat) :
  i ∈ selectFrom tag attr k es ↔
  ∃ j e, i = k + j ∧ es !! j = Some e ∧ matchesSelector tag attr e = true.
Proof.
  revert k. induction es as [|e es IH]; intros k; simpl.
  - split; [by intros ?%elem_of_nil|]. by intros (j & e & _ & ? & _).
  - assert (i ∈ selectFrom tag attr (S k) es ↔
            ∃ j e', i = k + S j ∧ es !! j = Some e'
                    ∧ matchesSelector tag attr e' = true) as IH'.
    { rewrite IH. by setoid_rewrite Nat.add_succ_r. }
    destruct (matchesSelector tag attr e) eqn:Hm.
    + rewrite elem_of_cons, IH'. split.
      * intros [->|(j & e' & -> & ? & ?)].
        -- exists 0, e. by rewrite Nat.add_0_r.
        -- by exists (S j), e'.
      * intros ([|j] & e' & -> & Hl & ?); simpl in Hl.
        -- left. by rewrite Nat.add_0_r.
        -- right. by exists j, e'.
    + rewrite IH'. split.
      * intros (j & e' & -> & ? & ?). by exists (S j), e'.
      * intros ([|j] & e' & -> & Hl & ?); simpl in Hl.
        -- congruence.
        -- by exists j, e'.
Qed.

Lemma selectFrom_ge tag attr k es i :
  i ∈ selectFrom tag attr k es → k ≤ i.
Proof. intros (j & e & -> & _)%elem_of_selectFrom. lia. Qed.

Lemma NoDup_selectFrom tag attr k es : NoDup (selectFrom tag attr k es).
Proof.
  revert k. induction es as [|e es IH]; intros k; simpl.
  - apply NoDup_nil_2.
  - destruct (matchesSelector tag attr e); [|apply IH].
    apply NoDup_cons_2; [|apply IH].
    intros ?%selectFrom_ge. lia.
Qed.

Lemma elem_of_querySelectorAll tag attr d i :
  i ∈ querySelectorAll tag attr d ↔
  ∃ e, elements d !! i = Some e ∧ matchesSelector tag attr e = true.
Proof.
  unfold querySelectorAll. rewrite elem_of_selectFrom. split.
  - intros (j & e & -> & ? & ?). by exists e.
  - intros (e & ? & ?). by exists i, e.
Qed.

Section WithURL.
Variable URL : string → string → option string.
Variable base : string.

Lemma rewriteEntry_lookup d entry i :
  elements (rewriteEntry URL base d entry) !! i
  = (entryOnElement URL base) entry <$> elements d !! i.
Proof.
  destruct entry as [tag attrs]. unfold rewriteEntry, entryOnElement.
  simpl. rewrite elements_foldl_update, foldl_alter_lookup
    by apply NoDup_selectFrom.
  destruct (elements d !! i) as [e|] eqn:He; simpl.
  - destruct (matchesSelector tag _ e) eqn:Hm.
    + rewrite decide_True; [done|].
      apply elem_of_querySelectorAll. by exists e.
    + rewrite decide_False; [done|].
      intros (e' & He' & Hm')%elem_of_querySelectorAll. congruence.
  - by destruct (decide _).
Qed.

(** The pass acts on each element object on its own. *)
Lemma rewriteDocument_lookup d i :
  elements (rewriteDocument URL d base) !! i
  = (rewriteElement URL base) <$> elements d !! i.
Proof.
  unfold rewriteDocument, rewriteElement.
  generalize URL_ATTRS as entries. intros entries. revert d.
  induction entries as [|entry entries IH]; intros d; simpl.
  - by destruct (elements d !! i).
  - rewrite IH, rewriteEntry_lookup.
    by destruct (elements d !! i).
Qed.

(** *** Special references stay *)

Lemma rewriteAttr_special a b e :
  isAbsoluteOrSpecial (getAttr a e) = true →
  getAttr a (rewriteAttr URL base e b) = getAttr a e.
Proof.
  intros Hsp. unfold rewriteAttr.
  destruct (getAttr b e) as [url|] eqn:Hb; [|done].
  destruct (truthy url && negb (isAbsoluteOrSpecial (Some url))) eqn:Hc;
    [|done].
  destruct (decide (a = b)) as [->|Hne].
  - rewrite Hb in Hsp. rewrite Hsp in Hc.
    by rewrite andb_false_r in Hc.
  - unfold getAttr, setAttr; simpl.
    by apply getAttribute_setAttribute_ne.
Qed.

Lemma rewriteAttrs_special a attrs e :
  isAbsoluteOrSpecial (getAttr a e) = true →
  getAttr a (rewriteAttrs URL base attrs e) = getAttr a e.
Proof.
  unfold rewriteAttrs. revert e.
  induction attrs as [|b attrs IH]; intros e Hsp; simpl; [done|].
  rewrite IH; rewrite rewriteAttr_special; done.
Qed.

Lemma rewriteElement_special a e :
  isAbsoluteOrSpecial (getAttr a e) = true →
  getAttr a ((rewriteElement URL base) e) = getAttr a e.
Proof.
  unfold rewriteElement. generalize URL_ATTRS as entries.
  intros entries. revert e.
  induction entries as [|entry entries IH]; intros e Hsp; simpl; [done|].
  assert (getAttr a ((entryOnElement URL base) entry e) = getAttr a e) as Hstep.
  { unfold entryOnElement. destruct (matchesSelector _ _ e); [|done].
    by apply rewriteAttrs_special. }
  rewrite IH; rewrite Hstep; done.
Qed.

(** *** Tag names and attribute names stay *)

Lemma rewriteAttr_shape e b :
  tagName (rewriteAttr URL base e b) = tagName e
  ∧ (attributes (rewriteAttr URL base e b)).*1 = (attributes e).*1
  ∧ childNodes (rewriteAttr URL base e b) = childNodes e.
Proof.
  unfold rewriteAttr. destruct (getAttr b e) as [url|] eqn:Hb; [|done].
  destruct (truthy url && _); [|done]. simpl.
  split_and!; [done| |done]. apply setAttribute_names. by exists url.
Qed.

Lemma rewriteAttrs_shape attrs e :
  tagName (rewriteAttrs URL base attrs e) = tagName e
  ∧ (attributes (rewriteAttrs URL base attrs e)).*1 = (attributes e).*1
  ∧ childNodes (rewriteAttrs URL base attrs e) = childNodes e.
Proof.
  unfold rewriteAttrs. revert e.
  induction attrs as [|b attrs IH]; intros e; simpl; [done|].
  destruct (IH (rewriteAttr URL base e b)) as (-> & -> & ->).
  apply rewriteAttr_shape.
Qed.

Lemma rewriteElement_shape e :
  tagName ((rewriteElement URL base) e) = tagName e
  ∧ (attributes ((rewriteElement URL base) e)).*1 = (attributes e).*1
  ∧ childNodes ((rewriteElement URL base) e) = childNodes e.
Proof.
  unfold rewriteElement. generalize URL_ATTRS as entries.
  intros entries. revert e.
  induction entries as [|entry entries IH]; intros e; simpl; [done|].
  destruct (IH ((entryOnElement URL base) entry e)) as (-> & -> & ->).
  unfold entryOnElement. destruct (matchesSelector _ _ e); [|done].
  apply rewriteAttrs_shape.
Qed.

End WithURL.

End RewriteFacts.

(** C6.  Whatever the classifier marks special is left as it is by the
    document pass: the element keeps its place and its tag name, and the
    attribute keeps its value (an absent attribute stays absent). *)
Theorem special_references_are_left_unchanged
        (URL : string → string → option string) (base : string)
        (d : Rewrite.Document) (i : nat) (e : Rewrite.Element)
        (attr : string) :
  Rewrite.elements d !! i = Some e →
  Rewrite.isAbsoluteOrSpecial (Rewrite.getAttr attr e) = true →
  ∃ e', Rewrite.elements (Rewrite.rewriteDocument URL d base) !! i = Some e'
        ∧ Rewrite.tagName e' = Rewrite.tagName e
        ∧ Rewrite.getAttr attr e' = Rewrite.getAttr attr e.
Proof.
  intros He Hsp. exists (Props.rewriteElement URL base e).
  rewrite RewriteFacts.rewriteDocument_lookup, He. split_and!.
  - done.
  - apply RewriteFacts.rewriteElement_shape.
  - by apply RewriteFacts.rewriteElement_special.
Qed.

(** The in-page anchor of [sampleDocument] survives the pass. *)
Lemma special_references_are_left_unchanged_witness :
  ∃ e', Rewrite.elements
          (Rewrite.rewriteDocument Rfc3986.href Props.sampleDocument
                                   "https://h/o/r/ref/dir") !! 4 = Some e'
        ∧ Rewrite.tagName e' = "a"
        ∧ Rewrite.getAttr "href" e' = Some "#top".
Proof.
  apply (special_references_are_left_unchanged Rfc3986.href
           "https://h/o/r/ref/dir" Props.sampleDocument 4
           (Rewrite.mkElement "a" [("href", "#top")] [inr "top"]) "href");
    reflexivity.
Defined.

(* ===================================================================== *)
(** ** Elements the selector misses                                       *)
(* ===================================================================== *)

Module SelectorFacts.
Import Js JsFacts Rewrite Props RewriteFacts.

(** An element that lacks the first listed attribute of its entry is not
    in the node list, so none of its listed attributes is examined. *)
Lemma entryOnElement_without_first URL base tag attr0 attrs e :
  getAttr attr0 e = None →
  entryOnElement URL base (tag, attr0 :: attrs) e = e.
Proof.
  intros Hnone. unfold entryOnElement, matchesSelector; simpl.
  rewrite Hnone, bool_decide_eq_false_2, andb_false_r; [done|].
  by intros [? ?].
Qed.

Lemma entryOnElement_other_tag URL base tag attrs e :
  tagName e ≠ tag → entryOnElement URL base (tag, attrs) e = e.
Proof.
  intros Hne. unfold entryOnElement, matchesSelector; simpl.
  by destruct (String.eqb_spec (tagName e) tag).
Qed.

(** A video element without [src] leaves the pass as it entered it,
    whatever its [poster] is. *)
Lemma video_without_src_untouched URL base d i e :
  elements d !! i = Some e →
  tagName e = "video" →
  getAttr "src" e = None →
  elements (rewriteDocument URL d base) !! i = Some e.
Proof.
  intros He Htag Hsrc. rewrite rewriteDocument_lookup, He. simpl. f_equal.
  unfold rewriteElement, URL_ATTRS. simpl.
  rewrite (entryOnElement_other_tag _ _ "a" _ e),
    (entryOnElement_other_tag _ _ "img" _ e),
    (entryOnElement_other_tag _ _ "script" _ e),
    (entryOnElement_other_tag _ _ "link" _ e),
    (entryOnElement_other_tag _ _ "source" _ e),
    (entryOnElement_without_first _ _ "video" "src" _ e),
    (entryOnElement_other_tag _ _ "audio" _ e);
    first [done | rewrite Htag; discriminate].
Qed.

End SelectorFacts.

(** C4, at the input [<video poster="thumb.png"></video>].  The classifier
    marks [thumb.png] rewritable, yet the pass returns the document as it
    was: the node list is built from [video[src]], and this element is not
    in it.  With a [src] on the same element both attributes are replaced
    by the resolver's output. *)
Theorem video_poster_without_src_is_not_rewritten
        (URL : string → string → option string) (base : string) :
  Rewrite.isAbsoluteOrSpecial (Some "thumb.png") = false
  ∧ Rewrite.querySelectorAll "video" "src" Props.posterOnlyDocument = []
  ∧ Rewrite.rewriteDocument URL Props.posterOnlyDocument base
    = Props.posterOnlyDocument
  ∧ Rewrite.elements
      (Rewrite.rewriteDocument URL Props.posterWithSrcDocument base) !! 3
    = Some (Rewrite.mkElement "video"
              [("src", Rewrite.resolveUrl URL "clip.mp4" base);
               ("poster", Rewrite.resolveUrl URL "thumb.png" base)] []).
Proof. split_and!; reflexivity. Qed.

(* ===================================================================== *)
(** ** The resolver                                                       *)
(* ===================================================================== *)

Module ResolverFacts.
Import Js JsFacts Rewrite Props.

Lemma rev_app_head (s acc : string) :
  startsWith (String.rev_app s acc) "/" =
  match lastChar s with
  | Some c => bool_decide (c = "/"%char)
  | None => startsWith acc "/"
  end.
Proof.
  revert acc. induction s as [|c s IH]; intros acc; simpl; [done|].
  rewrite IH. destruct (lastChar s); [done|].
  rewrite startsWith_cons.
  assert (startsWith acc "" = true) as -> by by destruct acc.
  rewrite andb_true_r. apply bool_decide_ext. naive_solver.
Qed.

Lemma endsWith_slash (b : string) :
  endsWith b "/" = bool_decide (lastChar b = Some "/"%char).
Proof.
  change (endsWith b "/") with (startsWith (String.rev_app b "") "/").
  rewrite rev_app_head.
  destruct (lastChar b) as [c|].
  - apply bool_decide_ext. naive_solver.
  - by rewrite (bool_decide_eq_false_2 (None = Some "/"%char)).
Qed.

Lemma withTrailingSeparator_lastChar (b : string) :
  withTrailingSeparator b =
  if bool_decide (lastChar b = Some "/"%char) then b else b +:+ "/".
Proof.
  induction b as [|c r IH]; [done|].
  destruct r as [|c' r'].
  - simpl. destruct (Ascii.eqb_spec c "/") as [->|Hne].
    + by rewrite bool_decide_eq_true_2.
    + rewrite bool_decide_eq_false_2; [done|]. by intros [= ?].
  - change (withTrailingSeparator (String c (String c' r')))
      with (String c (withTrailingSeparator (String c' r'))).
    rewrite IH.
    assert (lastChar (String c (String c' r')) = lastChar (String c' r'))
      as ->.
    { simpl. by destruct (lastChar r'). }
    by destruct (bool_decide _).
Qed.

(** The base [resolveUrl] hands to [URL] is the base of the spec. *)
Lemma resolveUrl_base (b : string) :
  (if endsWith b "/" then b else b +:+ "/") = withTrailingSeparator b.
Proof. by rewrite endsWith_slash, withTrailingSeparator_lastChar. Qed.

End ResolverFacts.

(** C5.  [resolveUrl r b] is the result of resolving [r] against [b] with
    a trailing separator appended if absent, and [r] itself when that
    resolution fails; nothing is raised.  Under standard reference
    resolution, ["../x.css"] against ["https://h/o/r/ref/dir"] gives
    ["https://h/o/r/ref/x.css"]. *)
Theorem resolveUrl_resolves_against_directory_base
        (URL : string → string → option string) (r b : string) :
  Rewrite.resolveUrl URL r b
  = default r (URL r (Props.withTrailingSeparator b))
  ∧ Rewrite.resolveUrl Rfc3986.href "../x.css" "https://h/o/r/ref/dir"
    = "https://h/o/r/ref/x.css".
Proof.
  split; [|reflexivity].
  unfold Rewrite.resolveUrl. rewrite ResolverFacts.resolveUrl_base.
  by destruct (URL r _).
Qed.

(* ===================================================================== *)
(** ** The entry point                                                    *)
(* ===================================================================== *)

Module EntryFacts.
Import Js JsFacts Rewrite Props RewriteFacts.

Lemma setAttr_same a v e : getAttr a e = Some v → setAttr a v e = e.
Proof.
  intros H. destruct e as [t attrs kids]. unfold setAttr, getAttr in *.
  simpl in *. by rewrite setAttribute_same.
Qed.

(** When every [URL] construction throws, [resolveUrl] hands back the
    reference and the attribute is written with the value it had. *)
Lemma rewriteAttr_failing base e b : rewriteAttr (λ _ _, None) base e b = e.
Proof.
  unfold rewriteAttr. destruct (getAttr b e) as [url|] eqn:Hb; [|done].
  destruct (truthy url && _); [|done].
  unfold resolveUrl. by apply setAttr_same.
Qed.

Lemma rewriteElement_failing base e : rewriteElement (λ _ _, None) base e = e.
Proof.
  unfold rewriteElement. generalize URL_ATTRS as entries.
  induction entries as [|[tag attrs] entries IH]; simpl; [done|].
  assert (entryOnElement (λ _ _, None) base (tag, attrs) e = e) as ->;
    [|done].
  unfold entryOnElement. destruct (matchesSelector _ _ e); [|done].
  simpl. unfold rewriteAttrs. clear IH.
  induction attrs as [|b attrs IHa]; simpl; [done|].
  by rewrite rewriteAttr_failing.
Qed.

Lemma document_ext d1 d2 : elements d1 = elements d2 → d1 = d2.
Proof. destruct d1, d2. unfold elements; simpl. by intros [= -> ->]. Qed.

Lemma rewriteDocument_failing d base :
  rewriteDocument (λ _ _, None) d base = d.
Proof.
  apply document_ext, list_eq. intros i.
  rewrite rewriteDocument_lookup.
  destruct (elements d !! i) as [e|]; simpl; [|done].
  by rewrite rewriteElement_failing.
Qed.

End EntryFacts.

(** C8.  [rewriteHtml] is a total function of its text: whatever the
    markup, and whatever the parser makes of it, the result is the line
    [<!DOCTYPE html>] followed by the serialised tree.  Nothing is raised
    even when every [URL] construction throws: the tree is then serialised
    as it was parsed. *)
Theorem rewriteHtml_returns_document_with_doctype
        (URL : string → string → option string)
        (parseFromString : string → Rewrite.Document)
        (outerHTML : Rewrite.Document → string)
        (htmlText baseRawDirUrl : string) :
  Js.startsWith
    (Rewrite.rewriteHtml URL parseFromString outerHTML htmlText baseRawDirUrl)
    "<!DOCTYPE html>" = true
  ∧ Rewrite.rewriteHtml URL parseFromString outerHTML htmlText baseRawDirUrl
    = "<!DOCTYPE html>" +:+ String "010" ""
      +:+ outerHTML
            (Rewrite.rewriteDocument URL (parseFromString htmlText)
                                     baseRawDirUrl)
  ∧ Rewrite.rewriteHtml (λ _ _, None) parseFromString outerHTML htmlText
                        baseRawDirUrl
    = "<!DOCTYPE html>" +:+ String "010" ""
      +:+ outerHTML (parseFromString htmlText).
Proof.
  split_and!.
  - reflexivity.
  - reflexivity.
  - unfold Rewrite.rewriteHtml. by rewrite EntryFacts.rewriteDocument_failing.
Qed.

(* ===================================================================== *)
(** ** Query-string synchronisation                                       *)
(* ===================================================================== *)

Module UrlFacts.
Import Js JsFacts Main Nav.

(** *** [split] and [join] *)

Lemma split_cons_inv sep s : ∃ h t, split sep s = h :: t.
Proof.
  destruct s as [|c r]; simpl; [by eexists _, _|].
  destruct (Ascii.eqb c sep); [by eexists _, _|].
  destruct (split sep r); by eexists _, _.
Qed.

Lemma split_append sep (a b : string) :
  split sep (a +:+ String sep b) = split sep a ++ split sep b.
Proof.
  induction a as [|c a IH].
  - simpl. by rewrite Ascii.eqb_refl.
  - rewrite append_cons. simpl. rewrite IH.
    destruct (Ascii.eqb c sep); [done|].
    by destruct (split_cons_inv sep a) as (h & t & ->).
Qed.

Lemma split_without_sep sep (s : string) :
  includes_char sep s = false → split sep s = [s].
Proof.
  induction s as [|c r IH]; [done|]. simpl.
  intros [Hc Hr]%orb_false_iff. by rewrite Hc, IH.
Qed.

Lemma join_cons sep x y (l : list string) :
  join sep (x :: y :: l) = x +:+ sep +:+ join sep (y :: l).
Proof. done. Qed.

Lemma join_split (s : string) : join "/" (split "/" s) = s.
Proof.
  induction s as [|c r IH]; [done|]. simpl.
  destruct (split_cons_inv "/" r) as (h & t & Hs). rewrite Hs in *.
  destruct (Ascii.eqb_spec c "/") as [->|Hne].
  - rewrite join_cons, IH. done.
  - destruct t as [|y t].
    + simpl in *. by rewrite IH.
    + rewrite join_cons, append_cons. rewrite join_cons in IH. by rewrite IH.
Qed.

Lemma filterBoolean_id (l : list string) :
  forallb truthy l = true → filterBoolean l = l.
Proof.
  unfold filterBoolean. induction l as [|x l IH]; simpl; [done|].
  intros [Hx Hl]%andb_true_iff. by rewrite Hx, IH.
Qed.

(** *** [URLSearchParams] *)

Lemma params_get_delete_eq name q : params_get name (params_delete name q) = None.
Proof.
  unfold params_delete. induction q as [|[n v] q IH]; simpl; [done|].
  destruct (String.eqb_spec n name) as [->|Hne]; simpl; [done|].
  by destruct (String.eqb_spec n name).
Qed.

Lemma params_get_delete_ne name name' q :
  name ≠ name' →
  params_get name (params_delete name' q) = params_get name q.
Proof.
  intros Hne. unfold params_delete.
  induction q as [|[n v] q IH]; simpl; [done|].
  destruct (String.eqb_spec n name') as [->|Hn']; simpl.
  - by destruct (String.eqb_spec name' name); [congruence|].
  - by destruct (String.eqb_spec n name).
Qed.

Lemma params_get_set_eq name v q : params_get name (params_set name v q) = Some v.
Proof.
  induction q as [|[n w] q IH]; simpl.
  - by rewrite String.eqb_refl.
  - destruct (String.eqb_spec n name) as [->|Hne]; simpl.
    + by rewrite String.eqb_refl.
    + by destruct (String.eqb_spec n name).
Qed.

Lemma params_get_set_ne name name' v q :
  name ≠ name' →
  params_get name (params_set name' v q) = params_get name q.
Proof.
  intros Hne. induction q as [|[n w] q IH]; simpl.
  - by destruct (String.eqb_spec name' name); [congruence|].
  - destruct (String.eqb_spec n name') as [->|Hn']; simpl.
    + destruct (String.eqb_spec name' name); [congruence|].
      by apply params_get_delete_ne.
    + by destruct (String.eqb_spec n name).
Qed.

(** What [params.get(name) || ''] reads after [applyStateToUrl] wrote
    [value] under [name], or deleted [name] when [value] is empty. *)
Lemma get_after_sync name value q :
  default "" (params_get name
                (if truthy value then params_set name value q
                 else params_delete name q)) = value.
Proof.
  destruct value as [|c r]; simpl.
  - by rewrite params_get_delete_eq.
  - by rewrite params_get_set_eq.
Qed.

Lemma get_after_other_sync name name' value q :
  name ≠ name' →
  params_get name (if truthy value then params_set name' value q
                   else params_delete name' q) = params_get name q.
Proof.
  intros Hne. destruct (truthy value).
  - by apply params_get_set_ne.
  - by apply params_get_delete_ne.
Qed.

Lemma roundTrip_ref_path (w : World) :
  (roundTrip w).1.2 = ref (state w) ∧ (roundTrip w).2 = path (state w).
Proof.
  unfold roundTrip, applyStateToUrl, modify, parseQueryParams; simpl.
  set (q1 := if truthy (owner (state w)) && truthy (repo (state w))
             then _ else _).
  rewrite get_after_sync.
  rewrite (get_after_other_sync "ref" "path") by done.
  rewrite get_after_sync.
  by destruct (if truthy _ then _ else _) as [|? [|? ?]].
Qed.

End UrlFacts.

Module RoundTripFacts.
Import Js JsFacts Main Nav.

(** Names that [owner/repo] can carry come back from the query string,
    whatever the query string held before. *)
Lemma roundTrip_shareable (w : Main.World) :
  Nav.shareable (Main.state w) = true →
  Nav.roundTrip w = Nav.coordinate (Main.state w).
Proof.
  intros Hok.
  destruct (UrlFacts.roundTrip_ref_path w) as [Href Hpath].
  assert ((Nav.roundTrip w).1.1 = (Main.owner (Main.state w),
                                   Main.repo (Main.state w))) as Hrepo.
  { unfold Nav.shareable, Nav.shareableNames in Hok.
    apply andb_true_iff in Hok as [[Ho Hslash]%andb_true_iff Hsegs].
    apply negb_true_iff in Hslash.
    unfold Nav.roundTrip, Main.applyStateToUrl, Main.modify,
      Main.parseQueryParams; simpl.
    set (o := Main.owner (Main.state w)) in *.
    set (r := Main.repo (Main.state w)) in *.
    assert (Js.truthy r = true) as Hr.
    { destruct r; [|done]. by vm_compute in Hsegs. }
    rewrite Ho, Hr. simpl.
    rewrite (UrlFacts.get_after_other_sync "repo" "path") by done.
    rewrite (UrlFacts.get_after_other_sync "repo" "ref") by done.
    rewrite UrlFacts.params_get_set_eq. simpl.
    assert (Js.truthy (o +:+ "/" +:+ r) = true) as ->.
    { destruct o; [done|]. by rewrite JsFacts.append_cons. }
    change (o +:+ "/" +:+ r) with (o +:+ String "/" r).
    rewrite UrlFacts.split_append, (UrlFacts.split_without_sep _ o) by done.
    rewrite UrlFacts.filterBoolean_id
      by (simpl; by rewrite Ho, Hsegs).
    simpl. destruct (UrlFacts.split_cons_inv "/" r) as (h & t & Hs).
    rewrite Hs. simpl. f_equal.
    change (Js.join "/" (h :: t) = r). by rewrite <- Hs, UrlFacts.join_split. }
  unfold Nav.coordinate.
  destruct (Nav.roundTrip w) as [[[o r] rf] p]; simpl in *.
  congruence.
Qed.

(** With owner and repository name both empty the query string has no
    [repo] parameter and reads back as no names. *)
Lemma roundTrip_no_names (w : World) :
  owner (state w) = "" → repo (state w) = "" →
  roundTrip w = coordinate (state w).
Proof.
  intros Ho Hr. destruct (UrlFacts.roundTrip_ref_path w) as [Href Hpath].
  assert ((roundTrip w).1.1 = (owner (state w), repo (state w))) as Hrepo.
  { unfold roundTrip, applyStateToUrl, modify, parseQueryParams; simpl.
    rewrite Ho, Hr. simpl.
    rewrite (UrlFacts.get_after_other_sync "repo" "path") by done.
    rewrite (UrlFacts.get_after_other_sync "repo" "ref") by done.
    by rewrite UrlFacts.params_get_delete_eq. }
  unfold coordinate.
  destruct (roundTrip w) as [[[o r] rf] p]; simpl in *. congruence.
Qed.

(** The condition on the names cannot be dropped: a state object with
    owner [a/b] and repository [c], which no handler builds, reads back
    as owner [a] and repository [b/c]. *)
Lemma roundTrip_owner_with_slash :
  Js.truthy (Main.owner Nav.slashOwnerState) = true
  ∧ Js.truthy (Main.repo Nav.slashOwnerState) = true
  ∧ Nav.roundTrip (Nav.worldOf Nav.slashOwnerState)
    = ("a", "b/c", "main", "docs")
  ∧ Nav.roundTrip (Nav.worldOf Nav.slashOwnerState)
    ≠ Nav.coordinate Nav.slashOwnerState.
Proof. split_and!; [reflexivity..|]. vm_compute. discriminate. Qed.

End RoundTripFacts.

(* ===================================================================== *)
(** ** The three caches                                                   *)
(* ===================================================================== *)

Module CacheFacts.
Import Js Main.

(** Case analysis on the answer the goal branches on. *)
Ltac case_answer :=
  match goal with
  | |- context [match ?x with Ok _ => _ | Throw _ => _ end] => destruct x
  end.

Section WithApi.
Variable api : Api.

(** *** Directory listings *)

Lemma loadListing_hit o r p rf w items :
  listCache w !! cacheKey o r p rf = Some items →
  loadListing api o r p rf w = (Ok items, w).
Proof. intros H. unfold loadListing. by rewrite H. Qed.

Lemma loadListing_miss o r p rf w :
  listCache w !! cacheKey o r p rf = None →
  loadListing api o r p rf w =
  match listContents api (length (requests w)) o r p rf with
  | Ok items =>
      (Ok items,
       set_listCache (<[cacheKey o r p rf := items]> (listCache w))
                     (push_request (ListContents o r p rf) w))
  | Throw e => (Throw e, push_request (ListContents o r p rf) w)
  end.
Proof.
  intros H. unfold loadListing. rewrite H.
  unfold bind, request, modify, ret.
  by destruct (listContents api _ o r p rf).
Qed.

Lemma loadListing_filled o r p rf w v w1 :
  loadListing api o r p rf w = (Ok v, w1) →
  listCache w1 !! cacheKey o r p rf = Some v
  ∧ length (requests w1) ≤ S (length (requests w)).
Proof.
  destruct (listCache w !! cacheKey o r p rf) as [items|] eqn:Hc.
  - rewrite (loadListing_hit _ _ _ _ _ _ Hc). intros [= <- <-].
    split; [done|lia].
  - rewrite (loadListing_miss _ _ _ _ _ Hc).
    destruct (listContents api _ o r p rf) as [items|e]; [|done].
    intros [= <- <-]. simpl. split; [apply lookup_insert_eq|].
    rewrite length_app. simpl. lia.
Qed.

Lemma loadListing_failed o r p rf w e w1 :
  loadListing api o r p rf w = (Throw e, w1) →
  listCache w !! cacheKey o r p rf = None
  ∧ listContents api (length (requests w)) o r p rf = Throw e
  ∧ w1 = push_request (ListContents o r p rf) w.
Proof.
  destruct (listCache w !! cacheKey o r p rf) as [items|] eqn:Hc.
  - by rewrite (loadListing_hit _ _ _ _ _ _ Hc).
  - rewrite (loadListing_miss _ _ _ _ _ Hc).
    destruct (listContents api _ o r p rf) as [items|e']; [done|].
    by intros [= <- <-].
Qed.

(** *** File bodies *)

Lemma loadFileContent_hit o r p rf w text :
  fileCache w !! cacheKey o r p rf = Some text →
  loadFileContent api o r p rf w = (Ok text, w).
Proof. intros H. unfold loadFileContent. by rewrite H. Qed.

Lemma loadFileContent_miss o r p rf w :
  fileCache w !! cacheKey o r p rf = None →
  loadFileContent api o r p rf w =
  match getFileContent api (length (requests w)) o r p rf with
  | Ok res =>
      (Ok res.1,
       set_fileCache (<[cacheKey o r p rf := res.1]> (fileCache w))
                     (push_request (GetFileContent o r p rf) w))
  | Throw e => (Throw e, push_request (GetFileContent o r p rf) w)
  end.
Proof.
  intros H. unfold loadFileContent. rewrite H.
  unfold bind, request, modify, ret.
  by destruct (getFileContent api _ o r p rf).
Qed.

Lemma loadFileContent_filled o r p rf w v w1 :
  loadFileContent api o r p rf w = (Ok v, w1) →
  fileCache w1 !! cacheKey o r p rf = Some v
  ∧ length (requests w1) ≤ S (length (requests w)).
Proof.
  destruct (fileCache w !! cacheKey o r p rf) as [text|] eqn:Hc.
  - rewrite (loadFileContent_hit _ _ _ _ _ _ Hc). intros [= <- <-].
    split; [done|lia].
  - rewrite (loadFileContent_miss _ _ _ _ _ Hc).
    destruct (getFileContent api _ o r p rf) as [res|e]; [|done].
    intros [= <- <-]. simpl. split; [apply lookup_insert_eq|].
    rewrite length_app. simpl. lia.
Qed.

Lemma loadFileContent_failed o r p rf w e w1 :
  loadFileContent api o r p rf w = (Throw e, w1) →
  fileCache w !! cacheKey o r p rf = None
  ∧ getFileContent api (length (requests w)) o r p rf = Throw e
  ∧ w1 = push_request (GetFileContent o r p rf) w.
Proof.
  destruct (fileCache w !! cacheKey o r p rf) as [text|] eqn:Hc.
  - by rewrite (loadFileContent_hit _ _ _ _ _ _ Hc).
  - rewrite (loadFileContent_miss _ _ _ _ _ Hc).
    destruct (getFileContent api _ o r p rf) as [res|e']; [done|].
    by intros [= <- <-].
Qed.

(** *** Repository metadata *)

Lemma loadRepoInfo_hit o r w info :
  repoCache w !! (o +:+ "/" +:+ r) = Some info →
  loadRepoInfo api o r w = (Ok info, w).
Proof. intros H. unfold loadRepoInfo. by rewrite H. Qed.

Lemma loadRepoInfo_miss o r w :
  repoCache w !! (o +:+ "/" +:+ r) = None →
  loadRepoInfo api o r w =
  match getRepoInfo api (length (requests w)) o r with
  | Ok info =>
      (Ok info,
       set_repoCache (<[o +:+ "/" +:+ r := info]> (repoCache w))
                     (push_request (GetRepoInfo o r) w))
  | Throw e => (Throw e, push_request (GetRepoInfo o r) w)
  end.
Proof.
  intros H. unfold loadRepoInfo. rewrite H.
  unfold bind, request, modify, ret.
  by destruct (getRepoInfo api _ o r).
Qed.

Lemma loadRepoInfo_filled o r w v w1 :
  loadRepoInfo api o r w = (Ok v, w1) →
  repoCache w1 !! (o +:+ "/" +:+ r) = Some v
  ∧ length (requests w1) ≤ S (length (requests w)).
Proof.
  destruct (repoCache w !! (o +:+ "/" +:+ r)) as [info|] eqn:Hc.
  - rewrite (loadRepoInfo_hit _ _ _ _ Hc). intros [= <- <-].
    split; [done|lia].
  - rewrite (loadRepoInfo_miss _ _ _ Hc).
    destruct (getRepoInfo api _ o r) as [info|e]; [|done].
    intros [= <- <-]. simpl. split; [apply lookup_insert_eq|].
    rewrite length_app. simpl. lia.
Qed.

Lemma loadRepoInfo_failed o r w e w1 :
  loadRepoInfo api o r w = (Throw e, w1) →
  repoCache w !! (o +:+ "/" +:+ r) = None
  ∧ getRepoInfo api (length (requests w)) o r = Throw e
  ∧ w1 = push_request (GetRepoInfo o r) w.
Proof.
  destruct (repoCache w !! (o +:+ "/" +:+ r)) as [info|] eqn:Hc.
  - by rewrite (loadRepoInfo_hit _ _ _ _ Hc).
  - rewrite (loadRepoInfo_miss _ _ _ Hc).
    destruct (getRepoInfo api _ o r) as [info|e']; [done|].
    by intros [= <- <-].
Qed.

(** *** The loaders as get-or-fill *)

Lemma loadListing_getOrFill o r p rf w :
  Nav.getOrFill (loadListing api o r p rf) listCache set_listCache
    (cacheKey o r p rf) (ListContents o r p rf)
    (λ t, listContents api t o r p rf) (λ items, items) w.
Proof.
  unfold Nav.getOrFill.
  destruct (listCache w !! cacheKey o r p rf) as [items|] eqn:Hc.
  - by apply loadListing_hit.
  - rewrite (loadListing_miss _ _ _ _ _ Hc).
    by destruct (listContents api _ o r p rf).
Qed.

Lemma loadFileContent_getOrFill o r p rf w :
  Nav.getOrFill (loadFileContent api o r p rf) fileCache set_fileCache
    (cacheKey o r p rf) (GetFileContent o r p rf)
    (λ t, getFileContent api t o r p rf) fst w.
Proof.
  unfold Nav.getOrFill.
  destruct (fileCache w !! cacheKey o r p rf) as [text|] eqn:Hc.
  - by apply loadFileContent_hit.
  - rewrite (loadFileContent_miss _ _ _ _ _ Hc).
    by destruct (getFileContent api _ o r p rf).
Qed.

Lemma loadRepoInfo_getOrFill o r w :
  Nav.getOrFill (loadRepoInfo api o r) repoCache set_repoCache
    (o +:+ "/" +:+ r) (GetRepoInfo o r)
    (λ t, getRepoInfo api t o r) (λ info, info) w.
Proof.
  unfold Nav.getOrFill.
  destruct (repoCache w !! (o +:+ "/" +:+ r)) as [info|] eqn:Hc.
  - by apply loadRepoInfo_hit.
  - rewrite (loadRepoInfo_miss _ _ _ Hc).
    by destruct (getRepoInfo api _ o r).
Qed.

End WithApi.

End CacheFacts.

(** C7.  Each of the three loaders (directory listings, file bodies,
    repository metadata) is a get-or-fill over its cache: a hit returns
    the stored value and sends nothing; a miss invokes the producer once,
    and stores and returns its value if it resolves, or propagates its
    error and stores nothing if it fails.  Hence, once a call has
    resolved, a second call with the same key returns the stored value
    without a new request, so that the two calls invoke the producer at
    most once; and when the producer fails, the next call with that key
    invokes the producer again. *)
Theorem cache_get_or_fill
        (api : Main.Api) (o r p rf o' r' p' rf' : string) (w : Main.World) :
  Main.cacheKey o' r' p' rf' = Main.cacheKey o r p rf →
  o' +:+ "/" +:+ r' = o +:+ "/" +:+ r →
  (Nav.getOrFill (Main.loadListing api o r p rf)
     Main.listCache Main.set_listCache (Main.cacheKey o r p rf)
     (Main.ListContents o r p rf)
     (λ t, Main.listContents api t o r p rf) (λ items, items) w
   ∧ Nav.secondCallHits (Main.loadListing api o r p rf)
                        (Main.loadListing api o' r' p' rf') w
   ∧ Nav.failedFillIsRetried (Main.loadListing api o r p rf)
       Main.listCache (Main.cacheKey o r p rf) (Main.ListContents o r p rf)
       (λ t, Main.listContents api t o r p rf) (λ items, items) w)
  ∧ (Nav.getOrFill (Main.loadFileContent api o r p rf)
       Main.fileCache Main.set_fileCache (Main.cacheKey o r p rf)
       (Main.GetFileContent o r p rf)
       (λ t, Main.getFileContent api t o r p rf) fst w
     ∧ Nav.secondCallHits (Main.loadFileContent api o r p rf)
                          (Main.loadFileContent api o' r' p' rf') w
     ∧ Nav.failedFillIsRetried (Main.loadFileContent api o r p rf)
         Main.fileCache (Main.cacheKey o r p rf)
         (Main.GetFileContent o r p rf)
         (λ t, Main.getFileContent api t o r p rf) fst w)
  ∧ (Nav.getOrFill (Main.loadRepoInfo api o r)
       Main.repoCache Main.set_repoCache (o +:+ "/" +:+ r)
       (Main.GetRepoInfo o r)
       (λ t, Main.getRepoInfo api t o r) (λ info, info) w
     ∧ Nav.secondCallHits (Main.loadRepoInfo api o r)
                          (Main.loadRepoInfo api o' r') w
     ∧ Nav.failedFillIsRetried (Main.loadRepoInfo api o r)
         Main.repoCache (o +:+ "/" +:+ r) (Main.GetRepoInfo o r)
         (λ t, Main.getRepoInfo api t o r) (λ info, info) w).
Proof.
  intros Hkey Hrepo. split_and!.
  - apply CacheFacts.loadListing_getOrFill.
  - intros v w1 [Hc Hlen]%CacheFacts.loadListing_filled. split; [|done].
    apply CacheFacts.loadListing_hit. by rewrite Hkey.
  - intros e Hc He.
    rewrite (CacheFacts.loadListing_miss api o r p rf w Hc), He.
    split_and!; [done..| |].
    + rewrite CacheFacts.loadListing_miss by exact Hc.
      change (length (Main.requests (Main.push_request _ w)))
        with (length (Main.requests w ++ [Main.ListContents o r p rf])).
      rewrite length_app, Nat.add_1_r.
      CacheFacts.case_answer; reflexivity.
    + rewrite CacheFacts.loadListing_miss by exact Hc.
      CacheFacts.case_answer; simpl; by rewrite <- app_assoc.
  - apply CacheFacts.loadFileContent_getOrFill.
  - intros v w1 [Hc Hlen]%CacheFacts.loadFileContent_filled. split; [|done].
    apply CacheFacts.loadFileContent_hit. by rewrite Hkey.
  - intros e Hc He.
    rewrite (CacheFacts.loadFileContent_miss api o r p rf w Hc), He.
    split_and!; [done..| |].
    + rewrite CacheFacts.loadFileContent_miss by exact Hc.
      change (length (Main.requests (Main.push_request _ w)))
        with (length (Main.requests w ++ [Main.GetFileContent o r p rf])).
      rewrite length_app, Nat.add_1_r.
      CacheFacts.case_answer; reflexivity.
    + rewrite CacheFacts.loadFileContent_miss by exact Hc.
      CacheFacts.case_answer; simpl; by rewrite <- app_assoc.
  - apply CacheFacts.loadRepoInfo_getOrFill.
  - intros v w1 [Hc Hlen]%CacheFacts.loadRepoInfo_filled. split; [|done].
    apply CacheFacts.loadRepoInfo_hit. by rewrite Hrepo.
  - intros e Hc He.
    rewrite (CacheFacts.loadRepoInfo_miss api o r w Hc), He.
    split_and!; [done..| |].
    + rewrite CacheFacts.loadRepoInfo_miss by exact Hc.
      change (length (Main.requests (Main.push_request _ w)))
        with (length (Main.requests w ++ [Main.GetRepoInfo o r])).
      rewrite length_app, Nat.add_1_r.
      CacheFacts.case_answer; reflexivity.
    + rewrite CacheFacts.loadRepoInfo_miss by exact Hc.
      CacheFacts.case_answer; simpl; by rewrite <- app_assoc.
Qed.

(** A failed fill, the retry, and the hit that follows, in each of the
    three tiers, with a service whose first answer is a failure. *)
Lemma cache_get_or_fill_witness :
  let listing := Main.loadListing Nav.flakyApi "adalenv" "Preview" "docs"
                                  "main" in
  let file := Main.loadFileContent Nav.flakyApi "adalenv" "Preview"
                                   "index.html" "main" in
  let info := Main.loadRepoInfo Nav.flakyApi "adalenv" "Preview" in
  (listing Nav.atRoot
   = (Main.Throw Nav.notFound,
      Main.push_request (Main.ListContents "adalenv" "Preview" "docs" "main")
                        Nav.atRoot)
   ∧ (listing (listing Nav.atRoot).2).1 = Main.Ok Nav.docsItems
   ∧ listing (listing (listing Nav.atRoot).2).2
     = (Main.Ok Nav.docsItems, (listing (listing Nav.atRoot).2).2))
  ∧ (file Nav.atRoot
     = (Main.Throw Nav.notFound,
        Main.push_request
          (Main.GetFileContent "adalenv" "Preview" "index.html" "main")
          Nav.atRoot)
     ∧ (file (file Nav.atRoot).2).1 = Main.Ok "<p>index.html</p>"
     ∧ file (file (file Nav.atRoot).2).2
       = (Main.Ok "<p>index.html</p>", (file (file Nav.atRoot).2).2))
  ∧ (info Nav.atRoot
     = (Main.Throw Nav.notFound,
        Main.push_request (Main.GetRepoInfo "adalenv" "Preview") Nav.atRoot)
     ∧ (info (info Nav.atRoot).2).1
       = Main.Ok (Main.mkRepoInfo "main" "adalenv/Preview")
     ∧ info (info (info Nav.atRoot).2).2
       = (Main.Ok (Main.mkRepoInfo "main" "adalenv/Preview"),
          (info (info Nav.atRoot).2).2)).
Proof.
  intros listing file info.
  destruct (cache_get_or_fill Nav.flakyApi "adalenv" "Preview" "docs" "main"
              "adalenv" "Preview" "docs" "main" Nav.atRoot eq_refl eq_refl)
    as ((_ & _ & Hl) & _ & (_ & _ & Hi)).
  destruct (cache_get_or_fill Nav.flakyApi "adalenv" "Preview" "index.html"
              "main" "adalenv" "Preview" "index.html" "main" Nav.atRoot
              eq_refl eq_refl)
    as (_ & (_ & _ & Hf) & _).
  destruct (cache_get_or_fill Nav.flakyApi "adalenv" "Preview" "docs" "main"
              "adalenv" "Preview" "docs" "main" (listing Nav.atRoot).2
              eq_refl eq_refl)
    as ((_ & Hl2 & _) & _ & (_ & Hi2 & _)).
  destruct (cache_get_or_fill Nav.flakyApi "adalenv" "Preview" "index.html"
              "main" "adalenv" "Preview" "index.html" "main"
              (file Nav.atRoot).2 eq_refl eq_refl)
    as (_ & (_ & Hf2 & _) & _).
  destruct (cache_get_or_fill Nav.flakyApi "adalenv" "Preview" "docs" "main"
              "adalenv" "Preview" "docs" "main" (info Nav.atRoot).2
              eq_refl eq_refl)
    as (_ & _ & (_ & Hi3 & _)).
  destruct (Hl Nav.notFound eq_refl eq_refl) as (Hl1 & _ & Hlr & _).
  destruct (Hf Nav.notFound eq_refl eq_refl) as (Hf1 & _ & Hfr & _).
  destruct (Hi Nav.notFound eq_refl eq_refl) as (Hi1 & _ & Hir & _).
  split_and!.
  - exact Hl1.
  - exact Hlr.
  - exact (proj1 (Hl2 Nav.docsItems _ eq_refl)).
  - exact Hf1.
  - exact Hfr.
  - exact (proj1 (Hf2 "<p>index.html</p>" _ eq_refl)).
  - exact Hi1.
  - exact Hir.
  - exact (proj1 (Hi3 (Main.mkRepoInfo "main" "adalenv/Preview") _ eq_refl)).
Defined.

(* ===================================================================== *)
(** ** [openPath], phase by phase                                         *)
(* ===================================================================== *)

Module OpenPathFacts.
Import Js Main Nav.

Section WithApi.
Variable api : Api.

Lemma startAll_cons {A} (c : M A) (rest : list (M A)) (w : World) :
  startAll (c :: rest) w
  = (let '(r, w1) := c w in
     let '(rs, w2) := startAll rest w1 in (r :: rs, w2)).
Proof. reflexivity. Qed.

(** The batch: every callback is run and every promise is rejected;
    nothing is sent. *)
Lemma startAll_dateEntry (items : list Item) (w : World) :
  startAll (map dateEntry items) w
  = (map (λ _, Throw notAFunction) items, w).
Proof.
  induction items as [|item items IH]; [done|].
  rewrite map_cons, startAll_cons. unfold dateEntry at 1. by rewrite IH.
Qed.

(** [Promise.all] on the batch resolves only when the listing is empty. *)
Lemma promiseAll_dateEntry (items : list Item) (w : World) :
  promiseAll (map dateEntry items) w
  = (match items with [] => Ok [] | _ :: _ => Throw notAFunction end, w).
Proof.
  unfold promiseAll. rewrite startAll_dateEntry. by destruct items.
Qed.

Lemma openPath_not_loaded p w :
  repositoryLoaded (state w) = false → openPath api p w = (Ok tt, w).
Proof.
  unfold repositoryLoaded, openPath. intros H.
  destruct (loaded (state w)), (truthy (owner (state w))),
    (truthy (repo (state w))); done.
Qed.

(** Past the guard, [openPath] is its [try] statement run in the world
    [beforeFetch] leaves. *)
Lemma openPath_loaded p w :
  repositoryLoaded (state w) = true →
  openPath api p w =
  tryFinally
    (tryCatch
       (let* s := gets state in
        let* items := loadListing api (owner s) (repo s) p (ref s) in
        modify (set_state (with_listing items)) >>
        let* dateEntries := promiseAll (map dateEntry items) in
        modify (set_state (with_fileDates (fromEntries dateEntries))) >>
        let* flt := gets (λ w', fileFilterValue (ui w')) in
        let* sel := gets (λ w', previewPath (state w')) in
        renderFileList items flt sel)
       (λ e,
          showError (if truthy (message e) then message e
                     else "Failed to load") >>
          modify (set_state (with_fileDates ∅)) >>
          renderFileList [] "" None))
    (showLoading false) (beforeFetch p w).
Proof.
  unfold repositoryLoaded. intros Hg.
  apply andb_true_iff in Hg as [[Hlo Ho]%andb_true_iff Hr].
  unfold openPath. by rewrite Hlo, Ho, Hr.
Qed.

Lemma beforeFetch_coordinates p w :
  owner (state (beforeFetch p w)) = owner (state w)
  ∧ repo (state (beforeFetch p w)) = repo (state w)
  ∧ ref (state (beforeFetch p w)) = ref (state w).
Proof. done. Qed.

Lemma openPath_fetch_failed p w e w1 :
  repositoryLoaded (state w) = true →
  loadListing api (owner (state w)) (repo (state w)) p (ref (state w))
              (beforeFetch p w) = (Throw e, w1) →
  openPath api p w = (Ok tt, afterCatch e w1).
Proof.
  intros Hg Hl. rewrite openPath_loaded by done.
  unfold tryFinally, tryCatch, bind, gets.
  destruct (beforeFetch_coordinates p w) as (-> & -> & ->).
  by rewrite Hl.
Qed.

Lemma openPath_fetched p w items w1 :
  repositoryLoaded (state w) = true →
  loadListing api (owner (state w)) (repo (state w)) p (ref (state w))
              (beforeFetch p w) = (Ok items, w1) →
  openPath api p w = (Ok tt, afterListing items w1).
Proof.
  intros Hg Hl. rewrite openPath_loaded by done.
  unfold tryFinally, tryCatch, bind, gets.
  destruct (beforeFetch_coordinates p w) as (-> & -> & ->).
  rewrite Hl. unfold modify at 1. rewrite promiseAll_dateEntry.
  unfold afterListing. by destruct items.
Qed.

(** The loaders touch the caches and the request log only. *)
Lemma loadListing_frame o r p rf w res w1 :
  loadListing api o r p rf w = (res, w1) →
  state w1 = state w ∧ searchParams w1 = searchParams w ∧ ui w1 = ui w.
Proof.
  unfold loadListing. destruct (listCache w !! _).
  - by intros [= <- <-].
  - unfold bind, request, modify, ret.
    destruct (listContents api _ o r p rf); by intros [= <- <-].
Qed.

Lemma loadRepoInfo_frame o r w res w1 :
  loadRepoInfo api o r w = (res, w1) →
  state w1 = state w ∧ searchParams w1 = searchParams w ∧ ui w1 = ui w.
Proof.
  unfold loadRepoInfo. destruct (repoCache w !! _).
  - by intros [= <- <-].
  - unfold bind, request, modify, ret.
    destruct (getRepoInfo api _ o r); by intros [= <- <-].
Qed.

(** [openPath] always completes: its [catch] clause takes every failure. *)
Lemma openPath_completes p w : (openPath api p w).1 = Ok tt.
Proof.
  destruct (repositoryLoaded (state w)) eqn:Hg.
  - destruct (loadListing api (owner (state w)) (repo (state w)) p
                (ref (state w)) (beforeFetch p w)) as [[items|e] w1] eqn:Hl.
    + by rewrite (openPath_fetched _ _ _ _ Hg Hl).
    + by rewrite (openPath_fetch_failed _ _ _ _ Hg Hl).
  - by rewrite openPath_not_loaded.
Qed.


End WithApi.
End OpenPathFacts.

(* ===================================================================== *)
(** ** [openPath] when the listing fetch fails                            *)
(* ===================================================================== *)

Module FailureFacts.
Import Js Main Nav OpenPathFacts.

(** The error is shown, [path] and the query string hold the attempted
    destination, the file list is drawn empty and [fileDates] is reset;
    [state.listing] is not assigned and keeps what it held. *)
Lemma openPath_fetch_failure api p w e w1 :
  repositoryLoaded (state w) = true →
  loadListing api (owner (state w)) (repo (state w)) p (ref (state w))
              (beforeFetch p w) = (Throw e, w1) →
  let w' := (openPath api p w).2 in
  (openPath api p w).1 = Ok tt
  ∧ errorText (ui w') = (if truthy (message e) then message e
                         else "Failed to load")
  ∧ path (state w') = p
  ∧ default "" (params_get "path" (searchParams w')) = p
  ∧ fileListItems (ui w') = []
  ∧ fileDates (state w') = Some ∅
  ∧ loadingShown (ui w') = false
  ∧ listing (state w') = listing (state w).
Proof.
  intros Hg Hl w'. subst w'.
  rewrite (openPath_fetch_failed _ _ _ _ _ Hg Hl).
  apply loadListing_frame in Hl as (Hs & Hq & Hu). simpl.
  rewrite Hs, Hq. simpl. split_and!; try done.
  apply UrlFacts.get_after_sync.
Qed.

End FailureFacts.

(** C2, at the input: browser at the root of [adalenv/Preview] with the
    root listing loaded, then [openPath("missing")], for which the listing
    fetch fails.  The error is surfaced, [path] and the query string hold
    ["missing"], the file list is drawn empty, but [state.listing] still
    holds the three entries of the root: the [catch] clause resets
    [fileDates] and the view, not [listing]. *)
Theorem openPath_failure_keeps_previous_listing :
  let w' := (Main.openPath Nav.demoApi "missing" Nav.atRoot).2 in
  Main.listContents Nav.demoApi 0 "adalenv" "Preview" "missing" "main"
  = Main.Throw Nav.notFound
  ∧ Main.errorText (Main.ui w')
    = "Not found. Check owner/repo, branch, and path."
  ∧ Main.path (Main.state w') = "missing"
  ∧ Main.params_get "path" (Main.searchParams w') = Some "missing"
  ∧ Main.fileListItems (Main.ui w') = []
  ∧ Main.listing (Main.state w') = Nav.rootItems
  ∧ Main.listing (Main.state w') ≠ [].
Proof. split_and!; [reflexivity..|]. vm_compute. discriminate. Qed.

(* ===================================================================== *)
(** ** The batch of date lookups                                          *)
(* ===================================================================== *)

Module DateFacts.
Import Js Main Nav OpenPathFacts.

(** A listing fetch that resolved with entries ends in the [catch]
    clause; one that resolved with none ends in the [try] block. *)
Lemma afterListing_entries item items w1 :
  afterListing (item :: items) w1
  = afterCatch notAFunction (set_state (with_listing (item :: items)) w1).
Proof. reflexivity. Qed.

Lemma afterListing_empty w1 :
  afterListing [] w1 = afterDates [] [] (set_state (with_listing []) w1).
Proof. reflexivity. Qed.

End DateFacts.

(** C1, as the code is shipped.  [api.js] has no [getLatestCommitDate],
    so no lookup is ever sent and no indicator is ever exposed.  After a
    listing fetch that resolved with [items], [openPath] has sent nothing
    beyond the listing fetch, keeps [items] as [state.listing], and leaves
    [state.fileDates] empty.  When [items] is not empty the [TypeError] of
    the first callback rejects the batch: its message is shown as the
    error, the file list is drawn empty, and no listed path is mapped to
    an indicator, against the claim.  When [items] is empty nothing is
    wrong: no error, an empty list. *)
Theorem openPath_exposes_no_file_dates
        (api : Main.Api) (p : string) (w : Main.World)
        (items : list Main.Item) (w1 : Main.World) :
  Nav.repositoryLoaded (Main.state w) = true →
  Main.loadListing api (Main.owner (Main.state w)) (Main.repo (Main.state w))
                   p (Main.ref (Main.state w)) (Nav.beforeFetch p w)
  = (Main.Ok items, w1) →
  let w' := (Main.openPath api p w).2 in
  Main.requests w' = Main.requests w1
  ∧ Main.listing (Main.state w') = items
  ∧ Main.fileDates (Main.state w') = Some ∅
  ∧ (items ≠ [] →
     ¬ Nav.datesExposed items w'
     ∧ Main.errorText (Main.ui w') = Main.message Main.notAFunction
     ∧ Main.fileListItems (Main.ui w') = [])
  ∧ (items = [] →
     Main.errorText (Main.ui w') = ""
     ∧ Main.fileListItems (Main.ui w') = []).
Proof.
  intros Hg Hl w'. subst w'.
  rewrite (OpenPathFacts.openPath_fetched _ _ _ _ _ Hg Hl). cbn [snd].
  apply OpenPathFacts.loadListing_frame in Hl as (_ & _ & Hu).
  destruct items as [|item items].
  - rewrite DateFacts.afterListing_empty.
    split_and!; [reflexivity..| |]; [by intros []|]. intros _.
    split; [|reflexivity]. simpl. by rewrite Hu.
  - rewrite DateFacts.afterListing_entries.
    split_and!; [reflexivity..| |done]. intros _.
    split_and!; [|reflexivity..].
    intros Hexp. destruct (Hexp item) as (fd & d & Hfd & Hd); [by left|].
    simpl in Hfd. injection Hfd as <-. by rewrite lookup_empty in Hd.
Qed.

(** [openPath("docs")] from the root: the listing fetch resolves with two
    entries, and [openPath] ends with the error shown, the list empty and
    no date. *)
Lemma openPath_exposes_no_file_dates_witness :
  let w' := (Main.openPath Nav.demoApi "docs" Nav.atRoot).2 in
  Main.requests w' = [Main.ListContents "adalenv" "Preview" "docs" "main"]
  ∧ Main.listing (Main.state w') = Nav.docsItems
  ∧ Main.fileDates (Main.state w') = Some ∅
  ∧ ¬ Nav.datesExposed Nav.docsItems w'
  ∧ Main.errorText (Main.ui w') = "api.getLatestCommitDate is not a function"
  ∧ Main.fileListItems (Main.ui w') = [].
Proof.
  set (w1 := (Main.loadListing Nav.demoApi "adalenv" "Preview" "docs" "main"
                (Nav.beforeFetch "docs" Nav.atRoot)).2).
  destruct (openPath_exposes_no_file_dates Nav.demoApi "docs" Nav.atRoot
              Nav.docsItems w1 eq_refl eq_refl)
    as (Hreqs & Hlist & Hdates & Hbad & _).
  destruct Hbad as (Hexp & Herr & Hshown); [discriminate|].
  split_and!; [exact Hreqs | exact Hlist | exact Hdates | exact Hexp
               | exact Herr | exact Hshown].
Defined.

(* ===================================================================== *)
(** ** [doLoadRepo] and [onSelect], phase by phase                        *)
(* ===================================================================== *)

Module TransitionFacts.
Import Js Main Nav OpenPathFacts.

Section WithApi.
Variable api : Api.

Lemma doLoadRepo_invalid w :
  (length (repoInputParts w) <? 2) = true →
  doLoadRepo api w
  = showError "Enter owner/repo (e.g. adalenv/some-repo)" w.
Proof.
  unfold repoInputParts. intros H.
  unfold doLoadRepo, getRepoInput, getBranchInput.
  unfold bind at 1 2. unfold gets. by rewrite H.
Qed.

Lemma doLoadRepo_valid w :
  (length (repoInputParts w) <? 2) = false →
  doLoadRepo api w =
  tryFinally
    (let* info := loadRepoInfo api (hd "" (repoInputParts w))
                               (join "/" (tl (repoInputParts w))) in
     modify (set_state (λ _,
       mkState (hd "" (repoInputParts w)) (join "/" (tl (repoInputParts w)))
               (effectiveRef w info) "" None [] None true)) >>
     setBranchInput (effectiveRef w info) >>
     setRepoInput (hd "" (repoInputParts w) +:+ "/" +:+
                   join "/" (tl (repoInputParts w))) >>
     applyStateToUrl >>
     openPath api "")
    (showLoading false) (beforeRepoInfo w).
Proof.
  unfold repoInputParts. intros H.
  unfold doLoadRepo, getRepoInput, getBranchInput.
  unfold bind at 1 2. unfold gets. by rewrite H.
Qed.

Lemma doLoadRepo_info_failed w e w1 :
  (length (repoInputParts w) <? 2) = false →
  loadRepoInfo api (hd "" (repoInputParts w))
               (join "/" (tl (repoInputParts w))) (beforeRepoInfo w)
  = (Throw e, w1) →
  doLoadRepo api w = (Throw e, (showLoading false w1).2).
Proof.
  intros Hv Hl. rewrite doLoadRepo_valid by done.
  unfold tryFinally, bind at 1. by rewrite Hl.
Qed.

Lemma doLoadRepo_info_ok w info w1 :
  (length (repoInputParts w) <? 2) = false →
  loadRepoInfo api (hd "" (repoInputParts w))
               (join "/" (tl (repoInputParts w))) (beforeRepoInfo w)
  = (Ok info, w1) →
  doLoadRepo api w
  = (Ok tt,
     (showLoading false (openPath api "" (afterRepoInfo w info w1)).2).2).
Proof.
  intros Hv Hl. rewrite doLoadRepo_valid by done.
  unfold tryFinally, bind at 1. rewrite Hl.
  change ((modify _ >> _) w1)
    with (openPath api "" (afterRepoInfo w info w1)).
  pose proof (openPath_completes api "" (afterRepoInfo w info w1)) as Hc.
  destruct (openPath api "" (afterRepoInfo w info w1)) as [res w2].
  simpl in Hc. by rewrite Hc.
Qed.

Lemma onSelect_dir itemPath w :
  onSelect api itemPath "dir" w = openPath api itemPath w.
Proof. done. Qed.

Lemma onSelect_rejected itemPath type w :
  type ≠ "dir" →
  previewable itemPath = false →
  onSelect api itemPath type w
  = showError "Only .html / .htm files can be previewed." w.
Proof.
  intros Ht Hp. unfold onSelect, previewable in *.
  destruct (String.eqb_spec type "dir"); [done|].
  apply orb_false_iff in Hp as [-> ->]. done.
Qed.

Lemma onSelect_accepted itemPath type w :
  type ≠ "dir" →
  previewable itemPath = true →
  onSelect api itemPath type w = (Ok tt, afterSelect itemPath w).
Proof.
  intros Ht Hp. unfold onSelect, previewable in *.
  destruct (String.eqb_spec type "dir"); [done|].
  by apply orb_true_iff in Hp as [-> | ->];
    [|rewrite andb_false_r].
Qed.

End WithApi.
End TransitionFacts.

(* ===================================================================== *)
(** ** The selected file across transitions                               *)
(* ===================================================================== *)

Module SelectionFacts.
Import Js Main Nav OpenPathFacts TransitionFacts.



(** The state the module starts with has nothing selected. *)
Lemma initialState_previewable : previewIsPreviewable initialState = true.
Proof. reflexivity. Qed.

Section WithApi.
Variable api : Api.




End WithApi.
End SelectionFacts.




(* ===================================================================== *)
(** ** The names the controller stores                                    *)
(* ===================================================================== *)

Module NamesFacts.
Import Js JsFacts Main Nav OpenPathFacts TransitionFacts UrlFacts.

Lemma split_parts_without_sep sep (s : string) :
  Forall (λ x, includes_char sep x = false) (split sep s).
Proof.
  induction s as [|c r IH]; simpl.
  - by repeat constructor.
  - destruct (Ascii.eqb c sep) eqn:Hc.
    + by constructor.
    + destruct (split sep r) as [|h t]; [repeat constructor; simpl|].
      * by rewrite Hc.
      * inversion IH as [|? ? Hh Ht]; subst. constructor; [|done].
        simpl. by rewrite Hc, Hh.
Qed.

Lemma includes_trimStart c (s : string) :
  includes_char c s = false → includes_char c (trimStart s) = false.
Proof.
  induction s as [|d r IH]; [done|]. simpl.
  intros [Hd Hr]%orb_false_iff.
  destruct (is_whitespace d); [by apply IH|]. simpl. by rewrite Hd, Hr.
Qed.

Lemma includes_rev_app c (s acc : string) :
  includes_char c (String.rev_app s acc)
  = includes_char c s || includes_char c acc.
Proof.
  revert acc. induction s as [|d r IH]; intros acc; simpl; [done|].
  rewrite IH. simpl. by destruct (Ascii.eqb d c), (includes_char c r).
Qed.

Lemma includes_rev c (s : string) :
  includes_char c (String.rev s) = includes_char c s.
Proof. unfold String.rev. by rewrite includes_rev_app, orb_false_r. Qed.

Lemma includes_trim c (s : string) :
  includes_char c s = false → includes_char c (trim s) = false.
Proof.
  intros H. unfold trim, trimEnd.
  rewrite includes_rev. apply includes_trimStart.
  rewrite includes_rev. by apply includes_trimStart.
Qed.

Lemma split_join (l : list string) :
  l ≠ [] →
  Forall (λ x, includes_char "/" x = false) l →
  split "/" (join "/" l) = l.
Proof.
  induction l as [|x l IH]; [done|]. intros _ Hall.
  inversion Hall as [|? ? Hx Hl]; subst.
  destruct l as [|y l].
  - by apply split_without_sep.
  - rewrite join_cons.
    change (x +:+ "/" +:+ join "/" (y :: l))
      with (x +:+ String "/" (join "/" (y :: l))).
    rewrite split_append, split_without_sep by done.
    by rewrite IH.
Qed.

Lemma filterBoolean_segments (f : string → string) (l : list string) :
  (∀ x, includes_char "/" x = false → includes_char "/" (f x) = false) →
  Forall (λ x, includes_char "/" x = false) l →
  Forall segment (filterBoolean (map f l)).
Proof.
  intros Hf. unfold filterBoolean.
  induction 1 as [|x l Hx Hl IH]; simpl; [constructor|].
  destruct (truthy (f x)) eqn:Ht; [|done].
  constructor; [|done]. split; [done|]. by apply Hf.
Qed.

(** Two or more segments make names that [owner/repo] can carry. *)
Lemma segments_shareable (parts : list string) :
  Forall segment parts →
  (length parts <? 2) = false →
  shareableNames (hd "" parts) (join "/" (tl parts)) = true.
Proof.
  intros Hall Hlen.
  destruct parts as [|o [|r rest]]; [done..|].
  inversion Hall as [|? ? [Ho Hslash] Hrest]; subst.
  change (hd "" (o :: r :: rest)) with o.
  change (tl (o :: r :: rest)) with (r :: rest).
  unfold shareableNames. rewrite Ho, Hslash.
  change (forallb truthy (split "/" (join "/" (r :: rest))) = true).
  rewrite split_join; [|done|].
  - apply forallb_forall. intros x Hx.
    rewrite Forall_forall in Hrest.
    by apply Hrest, list_elem_of_In.
  - eapply Forall_impl; [exact Hrest|]. by intros x [_ ?].
Qed.

(** The names [doLoadRepo] takes from the repository box. *)
Lemma repoInput_names_shareable (w : World) :
  (length (repoInputParts w) <? 2) = false →
  shareableNames (hd "" (repoInputParts w))
                 (join "/" (tl (repoInputParts w))) = true.
Proof.
  apply segments_shareable. unfold repoInputParts.
  apply filterBoolean_segments.
  - intros x. apply includes_trim.
  - apply split_parts_without_sep.
Qed.

(** The names [parseQueryParams] reads, when it reads both. *)
Lemma parsed_names_shareable (w : World) :
  let '(o, r, _, _) := parseQueryParams w in
  truthy o && truthy r = true → shareableNames o r = true.
Proof.
  unfold parseQueryParams.
  set (repoParam := default "" (params_get "repo" (searchParams w))).
  assert (Forall segment
            (if truthy repoParam
             then filterBoolean (split "/" repoParam) else [])) as Hall.
  { destruct (truthy repoParam); [|constructor].
    rewrite <- (map_id (split "/" repoParam)).
    apply filterBoolean_segments; [done|apply split_parts_without_sep]. }
  destruct (if truthy repoParam then _ else _) as [|o [|r rest]] eqn:Hparts.
  - done.
  - by rewrite andb_false_r.
  - intros _. by apply (segments_shareable (o :: r :: rest)).
Qed.

Section WithApi.
Variable api : Api.

(** [openPath] never writes the owner or the repository name. *)
Lemma openPath_names p w :
  owner (state (openPath api p w).2) = owner (state w)
  ∧ repo (state (openPath api p w).2) = repo (state w).
Proof.
  destruct (repositoryLoaded (state w)) eqn:Hg.
  - destruct (loadListing api (owner (state w)) (repo (state w)) p
                (ref (state w)) (beforeFetch p w)) as [[items|e] w1] eqn:Hl.
    + rewrite (openPath_fetched _ _ _ _ _ Hg Hl).
      apply loadListing_frame in Hl as (Hs & _). simpl.
      unfold afterListing. destruct items; simpl; by rewrite Hs.
    + rewrite (openPath_fetch_failed _ _ _ _ _ Hg Hl).
      apply loadListing_frame in Hl as (Hs & _). simpl. by rewrite Hs.
  - by rewrite openPath_not_loaded.
Qed.

(** The states the controller builds stay within the names that
    [owner/repo] can carry. *)
Lemma transitions_keep_names_shareable w :
  shareable (state w) = true →
  shareable (state (doLoadRepo api w).2) = true
  ∧ (∀ p, shareable (state (openPath api p w).2) = true)
  ∧ (∀ itemPath type,
       shareable (state (onSelect api itemPath type w).2) = true).
Proof.
  intros Hok.
  assert (∀ p w0, shareable (state w0) = true →
                  shareable (state (openPath api p w0).2) = true) as Hopen.
  { intros p w0 H0. unfold shareable in *.
    by destruct (openPath_names p w0) as [-> ->]. }
  split_and!.
  - destruct (length (repoInputParts w) <? 2) eqn:Hv.
    + by rewrite doLoadRepo_invalid.
    + destruct (loadRepoInfo api (hd "" (repoInputParts w))
                  (join "/" (tl (repoInputParts w))) (beforeRepoInfo w))
        as [[info|e] w1] eqn:Hl.
      * rewrite (doLoadRepo_info_ok _ _ _ _ Hv Hl).
        change (shareable
                  (state (openPath api "" (afterRepoInfo w info w1)).2)
                = true).
        apply Hopen. by apply repoInput_names_shareable.
      * rewrite (doLoadRepo_info_failed _ _ _ _ Hv Hl).
        apply loadRepoInfo_frame in Hl as (Hs & _).
        unfold shareable. simpl. by rewrite Hs.
  - intros p. by apply Hopen.
  - intros itemPath type. destruct (decide (type = "dir")) as [->|Ht].
    + rewrite onSelect_dir. by apply Hopen.
    + destruct (previewable itemPath) eqn:Hp.
      * by rewrite onSelect_accepted.
      * by rewrite onSelect_rejected.
Qed.

(** [onSelect] never writes the owner or the repository name. *)
Lemma onSelect_names itemPath type w :
  owner (state (onSelect api itemPath type w).2) = owner (state w)
  ∧ repo (state (onSelect api itemPath type w).2) = repo (state w).
Proof.
  destruct (decide (type = "dir")) as [->|Ht].
  - rewrite onSelect_dir. apply openPath_names.
  - destruct (previewable itemPath) eqn:Hp.
    + by rewrite onSelect_accepted.
    + by rewrite onSelect_rejected.
Qed.

(** [doLoadRepo] leaves the names alone, or assigns names taken from the
    repository box. *)
Lemma doLoadRepo_names w :
  (owner (state (doLoadRepo api w).2) = owner (state w)
   ∧ repo (state (doLoadRepo api w).2) = repo (state w))
  ∨ shareable (state (doLoadRepo api w).2) = true.
Proof.
  destruct (length (repoInputParts w) <? 2) eqn:Hv.
  - left. by rewrite doLoadRepo_invalid.
  - destruct (loadRepoInfo api (hd "" (repoInputParts w))
                (join "/" (tl (repoInputParts w))) (beforeRepoInfo w))
      as [[info|e] w1] eqn:Hl.
    + right. rewrite (doLoadRepo_info_ok _ _ _ _ Hv Hl).
      change (shareable
                (state (openPath api "" (afterRepoInfo w info w1)).2) = true).
      unfold shareable.
      destruct (openPath_names "" (afterRepoInfo w info w1)) as [-> ->].
      by apply repoInput_names_shareable.
    + left. rewrite (doLoadRepo_info_failed _ _ _ _ Hv Hl).
      apply loadRepoInfo_frame in Hl as (Hs & _). simpl. by rewrite Hs.
Qed.

(** The [popstate] listener leaves the names alone, or assigns names read
    from the query string. *)
Lemma onPopState_names w :
  (owner (state (onPopState api w).2) = owner (state w)
   ∧ repo (state (onPopState api w).2) = repo (state w))
  ∨ shareable (state (onPopState api w).2) = true.
Proof.
  unfold onPopState. pose proof (parsed_names_shareable w) as Hok.
  destruct (parseQueryParams w) as [[[o r] rf] p].
  destruct (truthy o) eqn:Ho; [|by left].
  destruct (truthy r) eqn:Hr; [|by left].
  right. simpl. unfold bind, modify. unfold shareable.
  destruct (openPath_names p
              (set_state (λ s, mkState o r rf p (previewPath s) (listing s)
                                       (fileDates s) true) w)) as [-> ->].
  by apply Hok.
Qed.

(** In every world a page can be in, owner and repository name are both
    empty or are names that [owner/repo] can carry. *)
Lemma reachable_names w :
  reachable api w →
  (owner (state w) = "" ∧ repo (state w) = "") ∨ shareable (state w) = true.
Proof.
  induction 1 as [w Hs|w w' _ IH Hs|w _ IH|w p _ IH|w itemPath type _ IH
                  |w _ IH].
  - left. by rewrite Hs.
  - unfold shareable in *. by rewrite Hs.
  - destruct (doLoadRepo_names w) as [[Ho Hr]|Hok]; [|by right].
    unfold shareable in *. by rewrite Ho, Hr.
  - destruct (openPath_names p w) as [Ho Hr].
    unfold shareable in *. by rewrite Ho, Hr.
  - destruct (onSelect_names itemPath type w) as [Ho Hr].
    unfold shareable in *. by rewrite Ho, Hr.
  - destruct (onPopState_names w) as [[Ho Hr]|Hok]; [|by right].
    unfold shareable in *. by rewrite Ho, Hr.
Qed.

End WithApi.
End NamesFacts.

(** C9.  In every state the page can be in, and so in every such state
    with a non-empty owner and repository name, writing the state to the
    three query parameters and parsing them back gives the owner,
    repository name, revision and path of the state, whatever the query
    string held before.  The owner of a state is always a [/]-free part
    of the repository box or of the [repo] parameter and the repository
    name a join of such parts, which is what the round trip needs. *)
Theorem share_url_round_trip (api : Main.Api) (w : Main.World) :
  Nav.reachable api w →
  Nav.roundTrip w = Nav.coordinate (Main.state w)
  ∧ (Js.truthy (Main.owner (Main.state w)) = true →
     Js.truthy (Main.repo (Main.state w)) = true →
     Nav.shareable (Main.state w) = true).
Proof.
  intros Hreach.
  destruct (NamesFacts.reachable_names api w Hreach) as [[Ho Hr]|Hok].
  - split; [by apply RoundTripFacts.roundTrip_no_names|].
    by rewrite Ho.
  - split; [by apply RoundTripFacts.roundTrip_shareable|done].
Qed.

(** A fresh page at [?repo=adalenv//Preview/x&ref=dev&path=docs] on which
    [popstate] fires: the state takes owner [adalenv] and repository
    [Preview/x], and reads back as such. *)
Lemma share_url_round_trip_witness :
  let w := (Main.onPopState Nav.demoApi Nav.linkedPage).2 in
  Nav.coordinate (Main.state w) = ("adalenv", "Preview/x", "dev", "docs")
  ∧ Nav.roundTrip w = ("adalenv", "Preview/x", "dev", "docs").
Proof.
  intros w.
  assert (Nav.reachable Nav.demoApi w) as Hw.
  { apply Nav.reach_popstate, Nav.reach_start. reflexivity. }
  assert (Nav.coordinate (Main.state w)
          = ("adalenv", "Preview/x", "dev", "docs")) as Hco by reflexivity.
  split; [exact Hco|].
  exact (eq_trans (proj1 (share_url_round_trip Nav.demoApi w Hw)) Hco).
Defined.


(** One reference of each class the classifier leaves alone. *)
Lemma special_classes :
  Forall (λ v, Rewrite.isAbsoluteOrSpecial v = true)
    [ None; Some ""; Some "http://host/x"; Some "https://host/x";
      Some "#top"; Some "data:text/plain,x"; Some "mailto:me@example.org";
      Some "tel:+15550100"; Some "javascript:void(0)";
      Some "  https://host/x  " ].
Proof. repeat constructor. Qed.

(* ===================================================================== *)
(** ** Dot-segment removal terminates within its fuel                     *)
(* ===================================================================== *)

Module Rfc3986Facts.
Import Js JsFacts Rfc3986.

Lemma dropChars_length n (s : string) :
  String.length (dropChars n s) = String.length s - n.
Proof.
  revert s. induction n as [|n IH]; intros [|c r]; simpl; try done.
Qed.

Lemma startsWith_length (s p : string) :
  startsWith s p = true → String.length p ≤ String.length s.
Proof.
  revert s. induction p as [|d p IH]; intros s; [simpl; lia|].
  destruct s as [|c s]; [done|].
  rewrite startsWith_cons. intros [_ H]%andb_true_iff.
  apply IH in H. simpl. lia.
Qed.

Lemma span_length stop (s a b : string) :
  span stop s = (a, b) → String.length b ≤ String.length s.
Proof.
  revert a b. induction s as [|c r IH]; intros a b; simpl.
  - intros [= <- <-]. simpl. lia.
  - destruct (stop c); [intros [= <- <-]; simpl; lia|].
    destruct (span stop r) as [a' b'] eqn:Hs. intros [= <- <-].
    specialize (IH a' b' eq_refl). lia.
Qed.

Lemma first_segment_length (input seg rest : string) :
  input ≠ "" →
  first_segment input = (seg, rest) →
  String.length rest < String.length input.
Proof.
  destruct input as [|c r]; [done|]. intros _.
  destruct (decide (c = "/"%char)) as [->|Hne].
  - unfold first_segment.
    destruct (span (one_of "/") r) as [a b] eqn:Hs. intros [= <- <-].
    apply span_length in Hs. simpl. lia.
  - assert (one_of "/" c = false) as Hstop.
    { unfold one_of.
      change (includes_char c "/") with (Ascii.eqb "/" c || false).
      destruct (Ascii.eqb_spec "/" c) as [Heq|_]; [by subst|done]. }
    assert (first_segment (String c r) = span (one_of "/") (String c r)) as ->.
    { unfold first_segment.
      by destruct c as [[] [] [] [] [] [] [] []]. }
    change (span (one_of "/") (String c r))
      with (if one_of "/" c then (EmptyString, String c r)
            else let '(a, b) := span (one_of "/") r in (String c a, b)).
    rewrite Hstop.
    destruct (span (one_of "/") r) as [a b] eqn:Hs.
    intros [= <- <-]. apply span_length in Hs. simpl. lia.
Qed.

(** More fuel than the length of the input changes nothing: the bound of
    [remove_dot_segments] is never reached. *)
Lemma remove_dots_go_fuel (f f' : nat) (input output : string) :
  String.length input < f → String.length input < f' →
  remove_dots_go f input output = remove_dots_go f' input output.
Proof.
  revert f' input output.
  induction f as [|f IH]; intros f' input output Hf Hf'; [lia|].
  destruct f' as [|f']; [lia|]. cbn [remove_dots_go].
  destruct (String.eqb input "") eqn:Hemp; [done|].
  assert (input ≠ "") as Hne by by apply String.eqb_neq.
  assert (0 < String.length input) as Hpos by (destruct input; [done|simpl; lia]).
  repeat match goal with
         | |- (if startsWith input ?p then _ else _) = _ =>
             let H := fresh "H" in
             destruct (startsWith input p) eqn:H;
             [apply startsWith_length in H; simpl in H;
              apply IH; rewrite dropChars_length; lia|]
         | |- (if String.eqb input ?p then _ else _) = _ =>
             let H := fresh "H" in
             destruct (String.eqb_spec input p) as [H|H];
             [subst input; simpl in *; apply IH; simpl; lia|]
         end.
  destruct (String.eqb input "." || String.eqb input ".."); [done|].
  destruct (first_segment input) as [seg rest] eqn:Hseg.
  apply first_segment_length in Hseg; [|done].
  apply IH; lia.
Qed.

End Rfc3986Facts.
